(** * peg-game-solver: a shallow embedding of [peg-game-solver.py]

    The triangular board graph ([generate_triangle_graph]), the move
    generator ([get_valid_moves]) and the depth-first search ([solve]) are
    embedded with Python integers as [Z], Python lists held in a store of
    list objects, and the three module globals ([FINAL_MOVE_LIST],
    [N_MOVES], [SEEN]) as one record threaded through the calls. *)

From stdpp Require Import gmap strings list fin_maps sorting.
From Stdlib Require Import ZArith Lia Ascii.

Local Open Scope Z_scope.
#[local] Set Warnings "-clear-no-such-hyp".

(** ** Exceptions and results *)

(** The exceptions the embedded code can raise.  [InvalidRef] is not a
    Python exception: it marks a reference of the model that is not
    allocated in the store, which no Python program can hold. *)
Inductive exn : Type :=
| IndexError
| KeyError
| NetworkXError
| InvalidRef.

Inductive res (A : Type) : Type :=
| Ok (a : A)
| Raise (e : exn).
Arguments Ok {A} a.
Arguments Raise {A} e.

#[global] Instance res_bind : MBind res := λ A B k r,
  match r with
  | Ok a => k a
  | Raise e => Raise e
  end.

(** [for x in xs: acc = body(acc, x)], stopping at the first exception. *)
Fixpoint for_each {A S : Type} (body : S -> A -> res S) (xs : list A) (acc : S)
  : res S :=
  match xs with
  | [] => Ok acc
  | x :: xs' => acc' ← body acc x; for_each body xs' acc'
  end.

(** [range(n)] for a Python integer [n]: empty when [n <= 0]. *)
Definition range (n : Z) : list Z := Z.of_nat <$> seq 0 (Z.to_nat n).

(** ** Python list indexing *)

(** [l[i]]: a negative index counts from the end; out of range raises. *)
Definition py_index {A : Type} (l : list A) (i : Z) : res nat :=
  let len := Z.of_nat (length l) in
  if (0 <=? i) && (i <? len) then Ok (Z.to_nat i)
  else if (i <? 0) && (0 <=? len + i) then Ok (Z.to_nat (len + i))
  else Raise IndexError.

Definition py_get {A : Type} (l : list A) (i : Z) : res A :=
  k ← py_index l i;
  match l !! k with
  | Some a => Ok a
  | None => Raise IndexError
  end.

Definition py_set {A : Type} (l : list A) (i : Z) (a : A) : res (list A) :=
  k ← py_index l i; Ok (<[k:=a]> l).

(** ** The graph ([networkx.Graph]) *)

(** A graph keeps, for every node, its attribute [level] (absent until it is
    assigned) and its neighbours in insertion order, which is the order
    [graph.neighbors] iterates in. *)
Record Graph : Type := mkGraph {
  node : gmap Z (option Z);
  adj : gmap Z (list Z)
}.

Definition empty_graph : Graph := mkGraph ∅ ∅.

Definition add_node (g : Graph) (u : Z) : Graph :=
  match node g !! u with
  | Some _ => g
  | None => mkGraph (<[u:=None]> (node g)) (<[u:=[]]> (adj g))
  end.

(** [adj[u][v] = {}]: a key that is already present keeps its position. *)
Definition add_neighbor (g : Graph) (u v : Z) : Graph :=
  let nbrs := default [] (adj g !! u) in
  if bool_decide (v ∈ nbrs) then g
  else mkGraph (node g) (<[u:=nbrs ++ [v]]> (adj g)).

Definition add_edge (g : Graph) (u v : Z) : Graph :=
  add_neighbor (add_neighbor (add_node (add_node g u) v) u v) v u.

(** [graph.nodes[u]["level"] = l] *)
Definition set_level (g : Graph) (u l : Z) : res Graph :=
  match node g !! u with
  | Some _ => Ok (mkGraph (<[u:=Some l]> (node g)) (adj g))
  | None => Raise KeyError
  end.

(** [graph.nodes[u]["level"]] *)
Definition level (g : Graph) (u : Z) : res Z :=
  match node g !! u with
  | Some (Some l) => Ok l
  | _ => Raise KeyError
  end.

(** [graph.neighbors(u)] *)
Definition neighbors (g : Graph) (u : Z) : res (list Z) :=
  match adj g !! u with
  | Some ns => Ok ns
  | None => Raise NetworkXError
  end.

(** [len(list(graph.nodes))] *)
Definition number_of_nodes (g : Graph) : Z := Z.of_nat (size (node g)).

(** ** Board graph builder *)

Definition triangular_number (n : Z) : Z := (n * (n + 1)) `div` 2.

Definition triangle_cell (n : Z) (i : Z) (g : Graph) (j : Z) : res Graph :=
  let current_node := (i * (i + 1)) `div` 2 + j in
  g1 ← set_level g current_node i;
  let g2 :=
    if i <? n - 1 then
      add_edge (add_edge g1 current_node (current_node + i + 1))
               current_node (current_node + i + 2)
    else g1 in
  let g3 := if j <? i then add_edge g2 current_node (current_node + 1) else g2 in
  Ok g3.

Definition triangle_row (n : Z) (g : Graph) (i : Z) : res Graph :=
  for_each (triangle_cell n i) (range (i + 1)) g.

Definition generate_triangle_graph (n : Z) : res Graph :=
  let vertices := triangular_number n in
  let g0 := foldl add_node empty_graph (range vertices) in
  for_each (triangle_row n) (range n) g0.

(** ** Move generator *)

(** A move is the triple [(src, peg_to_remove, dest)]. *)
Definition move : Type := Z * Z * Z.

(** The body of the inner loop of [get_valid_moves] for one neighbour [mid]
    of [src]: [None] stands for [continue], [Some m] for
    [moves.append(m)]. *)
Definition jump (g : Graph) (bs : list bool) (src mid : Z) : res (option move) :=
  if bool_decide (mid = src) then Ok None else
  mid_peg ← py_get bs mid;
  if negb mid_peg then Ok None else
  src_lvl ← level g src;
  mid_lvl ← level g mid;
  let dest :=
    if bool_decide (src_lvl ≠ mid_lvl) then 2 * mid - src + 1
    else 2 * mid - src in
  mid_nbrs ← neighbors g mid;
  if negb (bool_decide (dest ∈ mid_nbrs)) then Ok None else
  src_nbrs ← neighbors g src;
  if bool_decide (dest ∈ src_nbrs) then Ok None else
  off_level ←
    (if bool_decide (src_lvl = mid_lvl)
     then dest_lvl ← level g dest; Ok (bool_decide (mid_lvl ≠ dest_lvl))
     else Ok false);
  if off_level : bool then Ok None else
  dest_peg ← py_get bs dest;
  if dest_peg : bool then Ok None else Ok (Some (src, mid, dest)).

Definition jump_over (g : Graph) (bs : list bool) (src : Z)
    (moves : list move) (mid : Z) : res (list move) :=
  o ← jump g bs src mid;
  Ok (match o with Some m => moves ++ [m] | None => moves end).

(** The body of the outer loop for one position [src]. *)
Definition moves_from (g : Graph) (bs : list bool) (moves : list move) (src : Z)
  : res (list move) :=
  has_peg ← py_get bs src;
  if has_peg : bool then
    nbrs ← neighbors g src;
    for_each (jump_over g bs src) nbrs moves
  else Ok moves.

Definition get_valid_moves (g : Graph) (bs : list bool) : res (list move) :=
  for_each (moves_from g bs) (range (number_of_nodes g)) [].

(** ** Search engine *)

(** [bs.count(True)] *)
Fixpoint count_pegs (bs : list bool) : Z :=
  match bs with
  | [] => 0
  | x :: bs' => (if x then 1 else 0) + count_pegs bs'
  end.

(** [''.join(['1' if x else '0' for x in bs])] *)
Fixpoint board_hash (bs : list bool) : string :=
  match bs with
  | [] => EmptyString
  | x :: bs' => String (if x then "1"%char else "0"%char) (board_hash bs')
  end.

(** References to list objects, and the state the search runs in: the store
    of board lists and the module globals.  [SEEN_adds] records the
    arguments of the calls of [SEEN.add], oldest first; nothing reads it. *)
Definition loc : Type := nat.

Record World : Type := mkWorld {
  store : list (list bool);
  FINAL_MOVE_LIST : list move;
  N_MOVES : Z;
  SEEN : gset string;
  SEEN_adds : list string
}.

Definition set_store (w : World) (s : list (list bool)) : World :=
  mkWorld s (FINAL_MOVE_LIST w) (N_MOVES w) (SEEN w) (SEEN_adds w).

Definition load (w : World) (l : loc) : res (list bool) :=
  match store w !! l with
  | Some b => Ok b
  | None => Raise InvalidRef
  end.

(** [new = bs.copy()] *)
Definition list_copy (w : World) (l : loc) : res (loc * World) :=
  b ← load w l;
  Ok (length (store w), set_store w (store w ++ [b])).

(** [bs[i] = v], in place *)
Definition setitem (w : World) (l : loc) (i : Z) (v : bool) : res World :=
  b ← load w l;
  b' ← py_set b i v;
  Ok (set_store w (<[l:=b']> (store w))).

Definition count_move (w : World) : World :=
  mkWorld (store w) (FINAL_MOVE_LIST w) (N_MOVES w + 1) (SEEN w) (SEEN_adds w).

(** [SEEN.add(h); FINAL_MOVE_LIST.append(m)] *)
Definition enter (w : World) (h : string) (m : move) : World :=
  mkWorld (store w) (FINAL_MOVE_LIST w ++ [m]) (N_MOVES w)
          ({[h]} ∪ SEEN w) (SEEN_adds w ++ [h]).

(** [FINAL_MOVE_LIST.pop()] *)
Definition pop_move (w : World) : res World :=
  match FINAL_MOVE_LIST w with
  | [] => Raise IndexError
  | _ :: _ =>
      Ok (mkWorld (store w) (removelast (FINAL_MOVE_LIST w)) (N_MOVES w)
                  (SEEN w) (SEEN_adds w))
  end.

(** The first half of the loop body of [solve]: count the move, copy the
    board, make the move on the copy and encode the copy. *)
Definition make_move (w : World) (bs : loc) (m : move)
  : res (loc * string * World) :=
  let '(src, mid, dest) := m in
  '(new_bs, w1) ← list_copy (count_move w) bs;
  w2 ← setitem w1 new_bs src false;
  w3 ← setitem w2 new_bs mid false;
  w4 ← setitem w3 new_bs dest true;
  b ← load w4 new_bs;
  Ok (new_bs, board_hash b, w4).

(** The result of a call: [None] when the fuel of the model ran out,
    otherwise the exception raised or the value returned with the state
    left behind. *)
Definition outcome : Type := option (res (bool * World)).

(** The [for m in moves] loop of [solve]; [rec] is the recursive call. *)
Fixpoint search (rec : loc -> World -> outcome) (bs : loc) (moves : list move)
    (w : World) : outcome :=
  match moves with
  | [] => Some (Ok (false, w))
  | m :: rest =>
      match make_move w bs m with
      | Raise e => Some (Raise e)
      | Ok (new_bs, bs_hash, w1) =>
          if bool_decide (bs_hash ∈ SEEN w1) then search rec bs rest w1
          else
            match rec new_bs (enter w1 bs_hash m) with
            | None => None
            | Some (Raise e) => Some (Raise e)
            | Some (Ok (true, w2)) => Some (Ok (true, w2))
            | Some (Ok (false, w2)) =>
                match pop_move w2 with
                | Raise e => Some (Raise e)
                | Ok w3 => search rec bs rest w3
                end
            end
      end
  end.

Fixpoint solve (fuel : nat) (g : Graph) (bs : loc) (w : World) : outcome :=
  match fuel with
  | O => None
  | S fuel' =>
      match load w bs with
      | Raise e => Some (Raise e)
      | Ok b =>
          if bool_decide (count_pegs b = 1) then Some (Ok (true, w))
          else
            match get_valid_moves g b with
            | Raise e => Some (Raise e)
            | Ok moves =>
                if bool_decide (length moves = 0%nat) then Some (Ok (false, w))
                else search (solve fuel' g) bs moves w
            end
      end
  end.

(** ** The driver loop of [main] *)

Definition initial_world : World := mkWorld [] [] 0 ∅ [].

(** The starting positions tried by [main], in order. *)
Definition starting_nodes (n_rows : Z) : list Z :=
  i ← range (n_rows `div` 2 + 1);
  j ← range ((i + 1) `div` 2 + 1);
  [(i * (i + 1)) `div` 2 + j].

(** One iteration: build the full board, remove the peg at [current_node]
    and run the solver. *)
Definition try_start (fuel : nat) (g : Graph) (w : World) (current_node : Z)
  : outcome :=
  let board_state := length (store w) in
  let w1 := set_store w (store w ++ [replicate (size (node g)) true]) in
  match setitem w1 board_state current_node false with
  | Raise e => Some (Raise e)
  | Ok w2 => solve fuel g board_state w2
  end.

(** How [main] ends: the usage message and [sys.exit(1)], the printed
    solution and [sys.exit(0)], or "Unable to solve puzzle" and
    [sys.exit(0)]. *)
Inductive exit : Type :=
| ExitUsage
| ExitSolved (moves : list move)
| ExitUnable.

(** The loop of [main] over the starting positions. *)
Fixpoint try_all (fuel : nat) (g : Graph) (nodes : list Z) (w : World)
  : option (res (exit * World)) :=
  match nodes with
  | [] => Some (Ok (ExitUnable, w))
  | current_node :: rest =>
      match try_start fuel g w current_node with
      | None => None
      | Some (Raise e) => Some (Raise e)
      | Some (Ok (true, w1)) => Some (Ok (ExitSolved (FINAL_MOVE_LIST w1), w1))
      | Some (Ok (false, w1)) => try_all fuel g rest w1
      end
  end.

(** [main], given [int(sys.argv[1])]. *)
Definition main (fuel : nat) (n_rows : Z) : option (res (exit * World)) :=
  if (n_rows <? 4) || (n_rows >? 6) then Some (Ok (ExitUsage, initial_world))
  else
    match generate_triangle_graph n_rows with
    | Raise e => Some (Raise e)
    | Ok g => try_all fuel g (starting_nodes n_rows) initial_world
    end.

(** ** Specification-side definitions *)

(** The pure effect of the three assignments of [solve] on a copy of the
    board: [src] and [mid] are emptied, [dest] receives the peg. *)
Definition apply_move (bs : list bool) (m : move) : res (list bool) :=
  let '(src, mid, dest) := m in
  b1 ← py_set bs src false;
  b2 ← py_set b1 mid false;
  py_set b2 dest true.

(** What [get_valid_moves] has checked of a move it emits. *)
Definition generated (g : Graph) (bs : list bool) (m : move) : Prop :=
  let '(src, mid, dest) := m in
  0 <= src < number_of_nodes g ∧
  py_get bs src = Ok true ∧ py_get bs mid = Ok true ∧
  py_get bs dest = Ok false ∧ mid ≠ src ∧
  ∃ src_nbrs mid_nbrs src_lvl mid_lvl,
    neighbors g src = Ok src_nbrs ∧ mid ∈ src_nbrs ∧
    neighbors g mid = Ok mid_nbrs ∧
    level g src = Ok src_lvl ∧ level g mid = Ok mid_lvl ∧
    dest = (if bool_decide (src_lvl ≠ mid_lvl) then 2 * mid - src + 1
            else 2 * mid - src) ∧
    dest ∈ mid_nbrs ∧ (dest ∉ src_nbrs) ∧
    (src_lvl = mid_lvl → level g dest = Ok mid_lvl).

(** Replaying a path: every move is [legal] on the board it is applied to. *)
Inductive plays (legal : list bool -> move -> Prop)
  : list bool -> list move -> list bool -> Prop :=
| plays_nil b : plays legal b [] b
| plays_cons b m b' path final :
    legal b m ->
    apply_move b m = Ok b' ->
    plays legal b' path final ->
    plays legal b (m :: path) final.

(** A graph whose nodes are [0 .. N-1], all with a level, and whose
    neighbour lists stay among them. *)
Definition closed_node (g : Graph) (u : Z) : bool :=
  match node g !! u, adj g !! u with
  | Some (Some _), Some ns =>
      forallb (λ v, (0 <=? v) && (v <? number_of_nodes g)) ns
  | _, _ => false
  end.

Definition closed_graph (g : Graph) : bool :=
  forallb (closed_node g) (range (number_of_nodes g)).

(** Row and column of a position in the row-major numbering of the
    triangle: row [i] starts at [T(i)]. *)
Fixpoint row_from (k : nat) (i p : Z) : Z :=
  match k with
  | O => i
  | S k' => if p <? triangular_number (i + 1) then i else row_from k' (i + 1) p
  end.

Definition row_of (p : Z) : Z := row_from (Z.to_nat p) 0 p.
Definition col_of (p : Z) : Z := p - triangular_number (row_of p).

Definition on_board (n p : Z) : bool := (0 <=? p) && (p <? triangular_number n).

(** [src], [mid], [dest] are three consecutive holes on one of the three
    lines of the triangular lattice, inside a triangle of [n] rows. *)
Definition collinear (n src mid dest : Z) : bool :=
  let dr := row_of mid - row_of src in
  let dc := col_of mid - col_of src in
  on_board n src && on_board n mid && on_board n dest &&
  bool_decide ((dr, dc) ∈ [(0, 1); (0, -1); (1, 0); (1, 1); (-1, 0); (-1, -1)]) &&
  (row_of dest =? row_of mid + dr) && (col_of dest =? col_of mid + dc).

(** A legal move of the game on board [bs]. *)
Definition legal_move (n : Z) (bs : list bool) (m : move) : Prop :=
  let '(src, mid, dest) := m in
  bs !! Z.to_nat src = Some true ∧ bs !! Z.to_nat mid = Some true ∧
  bs !! Z.to_nat dest = Some false ∧ collinear n src mid dest = true.

(** The board-independent checks of [jump], for every pair the generator
    can look at, imply the lattice geometry. *)
Definition jump_geometry (n : Z) (g : Graph) : bool :=
  forallb (λ src,
    match neighbors g src, level g src with
    | Ok src_nbrs, Ok src_lvl =>
        forallb (λ mid,
          match neighbors g mid, level g mid with
          | Ok mid_nbrs, Ok mid_lvl =>
              let dest :=
                if bool_decide (src_lvl ≠ mid_lvl) then 2 * mid - src + 1
                else 2 * mid - src in
              if bool_decide (mid ≠ src) && bool_decide (dest ∈ mid_nbrs)
                 && negb (bool_decide (dest ∈ src_nbrs))
                 && (bool_decide (src_lvl ≠ mid_lvl)
                     || match level g dest with
                        | Ok dest_lvl => bool_decide (dest_lvl = mid_lvl)
                        | Raise _ => false
                        end)
              then collinear n src mid dest else true
          | _, _ => true
          end) src_nbrs
    | _, _ => true
    end) (range (number_of_nodes g)).

(** Every edge joins two nodes whose levels differ by at most one. *)
Definition near_rows (g : Graph) (u v : Z) : bool :=
  match level g u, level g v with
  | Ok lu, Ok lv => Z.abs (lu - lv) <=? 1
  | _, _ => false
  end.

Definition edges_adjacent_rows (g : Graph) : bool :=
  forallb (λ '(u, ns), forallb (near_rows g u) ns) (map_to_list (adj g)).

(** A peg counts for one. *)
Definition peg (x : bool) : Z := if x then 1 else 0.

(** [grows w w']: from [w] to [w'] the store was only extended and [SEEN]
    only received encodings it did not hold, each of them once. *)
Definition grows (w w' : World) : Prop :=
  store w `prefix_of` store w' ∧
  ∃ adds, SEEN_adds w' = SEEN_adds w ++ adds ∧
          SEEN w' = list_to_set adds ∪ SEEN w ∧
          NoDup adds ∧ ∀ h, h ∈ adds → h ∉ SEEN w.

(** After a call on board [b] that returns [r] in state [w']: the state has
    only grown; on failure the path is as before and every board one move
    away from [b] is in [SEEN]; on success the path was extended by moves
    that, replayed from [b], leave one peg. *)
Definition solve_post (g : Graph) (b : list bool) (w : World) (r : bool)
    (w' : World) : Prop :=
  grows w w' ∧
  if r then
    ∃ path final,
      FINAL_MOVE_LIST w' = FINAL_MOVE_LIST w ++ path ∧
      plays (generated g) b path final ∧ count_pegs final = 1
  else
    FINAL_MOVE_LIST w' = FINAL_MOVE_LIST w ∧
    ∀ moves m b', get_valid_moves g b = Ok moves → m ∈ moves →
                  apply_move b m = Ok b' → board_hash b' ∈ SEEN w'.

Definition search_post (g : Graph) (b : list bool) (moves : list move)
    (w : World) (r : bool) (w' : World) : Prop :=
  grows w w' ∧
  if r then
    ∃ path final,
      FINAL_MOVE_LIST w' = FINAL_MOVE_LIST w ++ path ∧
      plays (generated g) b path final ∧ count_pegs final = 1
  else
    FINAL_MOVE_LIST w' = FINAL_MOVE_LIST w ∧
    ∀ m b', m ∈ moves → apply_move b m = Ok b' → board_hash b' ∈ SEEN w'.

(** The checks above, evaluated on the graph built for [n] rows. *)
Definition triangle_checks (n : Z) : bool :=
  match generate_triangle_graph n with
  | Ok g =>
      (number_of_nodes g =? triangular_number n) && closed_graph g
      && jump_geometry n g && edges_adjacent_rows g
  | Raise _ => false
  end.

(** ** Concrete boards *)

(** The graph of four rows. *)
Definition triangle4 : Graph :=
  match generate_triangle_graph 4 with
  | Ok g => g
  | Raise _ => empty_graph
  end.

(** Four rows with pegs in holes 0 and 1 only: one jump, 0 over 1 into 3,
    wins. *)
Definition two_pegs : list bool :=
  [true; true; false; false; false; false; false; false; false; false].

(** Pegs in holes 0, 1 and 9: after the only jump two pegs are left that
    cannot meet. *)
Definition three_pegs : list bool :=
  [true; true; false; false; false; false; false; false; false; true].

(** A single peg in hole 4. *)
Definition one_peg : list bool :=
  [false; false; false; false; true; false; false; false; false; false].

(** The first board [main] tries on four rows: full but for hole 0. *)
Definition corner_empty : list bool :=
  [false; true; true; true; true; true; true; true; true; true].

(** A fresh state holding one board, at reference 0. *)
Definition fresh (b : list bool) : World := mkWorld [b] [] 0 ∅ [].

(** The state a call returned in. *)
Definition state_after (o : outcome) : World :=
  match o with
  | Some (Ok (_, w)) => w
  | _ => initial_world
  end.

(** The states after a first and after a second call on [three_pegs]. *)
Definition stuck_once : World :=
  state_after (solve 3 triangle4 0%nat (fresh three_pegs)).

Definition stuck_twice : World :=
  state_after (solve 3 triangle4 0%nat stuck_once).

(** ** Definitions for the further properties *)

(** The board-independent checks of [jump] on a triple of positions. *)
Definition static_jump (g : Graph) (src mid dest : Z) : bool :=
  match neighbors g src, neighbors g mid, level g src, level g mid with
  | Ok src_nbrs, Ok mid_nbrs, Ok src_lvl, Ok mid_lvl =>
      bool_decide (mid ≠ src) && bool_decide (mid ∈ src_nbrs)
      && bool_decide (dest = if bool_decide (src_lvl ≠ mid_lvl)
                             then 2 * mid - src + 1 else 2 * mid - src)
      && bool_decide (dest ∈ mid_nbrs) && negb (bool_decide (dest ∈ src_nbrs))
      && (bool_decide (src_lvl ≠ mid_lvl)
          || match level g dest with
             | Ok dest_lvl => bool_decide (dest_lvl = mid_lvl)
             | Raise _ => false
             end)
  | _, _, _, _ => false
  end.

(** Every three consecutive holes of a line pass those checks. *)
Definition lattice_jumps_generated (n : Z) (g : Graph) : bool :=
  let holes := range (number_of_nodes g) in
  forallb (λ src, forallb (λ mid, forallb (λ dest,
    implb (collinear n src mid dest) (static_jump g src mid dest))
    holes) holes) holes.

(** Two holes that touch on the triangular lattice. *)
Definition adjacent (p q : Z) : bool :=
  bool_decide ((row_of q - row_of p, col_of q - col_of p)
               ∈ [(0, 1); (0, -1); (1, 0); (1, 1); (-1, 0); (-1, -1)]).

(** The level of every node is its row, and its neighbours are the holes
    that touch it. *)
Definition lattice_graph (g : Graph) : bool :=
  let holes := range (number_of_nodes g) in
  forallb (λ u,
    match level g u, neighbors g u with
    | Ok l, Ok ns =>
        (l =? row_of u)
        && forallb (λ v, (0 <=? v) && (v <? number_of_nodes g)
                         && adjacent u v) ns
        && forallb (λ v, implb (adjacent u v) (bool_decide (v ∈ ns))) holes
    | _, _ => false
    end) holes.

Definition triangle_lattice_checks (n : Z) : bool :=
  match generate_triangle_graph n with
  | Ok g => lattice_jumps_generated n g && lattice_graph g
  | Raise _ => false
  end.

(** A board that some sequence of generated moves, or of legal moves,
    brings down to one peg. *)
Definition solvable (g : Graph) (b : list bool) : Prop :=
  ∃ path final, plays (generated g) b path final ∧ count_pegs final = 1.

Definition winnable (n : Z) (b : list bool) : Prop :=
  ∃ path final, plays (legal_move n) b path final ∧ count_pegs final = 1.

(** Every board whose encoding is in [SEEN] is a dead end or has at least
    [k] pegs (the boards of the calls in progress). *)
Definition barren (g : Graph) (k : Z) (w : World) : Prop :=
  ∀ b0, board_hash b0 ∈ SEEN w → ¬ solvable g b0 ∨ k <= count_pegs b0.

(** The board [main] starts from: every hole filled. *)
Definition full_board (g : Graph) : list bool := replicate (size (node g)) true.

(** The state [main] ends in, and the moves it prints. *)
Definition exit_state (o : option (res (exit * World))) : World :=
  match o with
  | Some (Ok (_, w)) => w
  | _ => initial_world
  end.

Definition printed_moves (o : option (res (exit * World))) : list move :=
  match o with
  | Some (Ok (ExitSolved moves, _)) => moves
  | _ => []
  end.

(** The starting positions of [main] are holes of the board. *)
Definition starting_nodes_on_board (n : Z) : bool :=
  forallb (on_board n) (starting_nodes n).

(** [main] on [n] rows prints a solution of [T(n) - 2] moves. *)
Definition main_solves (n : Z) : bool :=
  match main 21 n with
  | Some (Ok (ExitSolved moves, _)) =>
      Z.of_nat (length moves) =? triangular_number n - 2
  | _ => false
  end.

(** [v] is among the neighbours of [u]. *)
Definition edge (g : Graph) (u v : Z) : Prop :=
  ∃ ns, neighbors g u = Ok ns ∧ v ∈ ns.

(** A graph on the nodes [0 .. V-1] whose adjacency is symmetric and has no
    loop. *)
Definition board_graph (V : Z) (g : Graph) : Prop :=
  (∀ u, is_Some (node g !! u) ↔ 0 <= u < V) ∧
  (∀ u, is_Some (adj g !! u) ↔ 0 <= u < V) ∧
  size (node g) = Z.to_nat V ∧
  (∀ u v, edge g u v → edge g v u ∧ u ≠ v ∧ 0 <= v < V).

(** ** Board printing *)

(** What [print_bs] writes to standard output, character by character. *)
Definition newline : ascii := "010"%char.

Definition header : list ascii :=
  String.list_ascii_of_string "Board state (X - Hole, O - Peg):".

(** The body of the loop of [print_bs] for index [i] and entry [bs[i]]; the
    state is [next_row_idx], [next_row_len] and the output so far. *)
Definition print_cell (n_rows : Z) (st : Z * Z * list ascii) (ix : Z * bool)
  : Z * Z * list ascii :=
  let '(next_row_idx, next_row_len, out) := st in
  let '(i, has_peg) := ix in
  let '(next_row_idx, next_row_len, out) :=
    if bool_decide (i = next_row_idx)
    then (next_row_idx + next_row_len, next_row_len + 1,
          out ++ [newline]
              ++ replicate (Z.to_nat (n_rows - next_row_len)) " "%char)
    else st in
  (next_row_idx, next_row_len,
   out ++ [if has_peg : bool then "O"%char else "X"%char; " "%char]).

Definition print_bs (bs : list bool) (n_rows : Z) : list ascii :=
  let '(_, _, out) :=
    foldl (print_cell n_rows) (0, 1, header ++ [newline])
          (zip (range (Z.of_nat (length bs))) bs) in
  out ++ [newline; newline].

(** Reading a printout back: the symbols [O] and [X], in order. *)
Definition symbols (out : list ascii) : list bool :=
  (λ c, bool_decide (c = "O"%char))
    <$> filter (λ c, c = "O"%char ∨ c = "X"%char) out.

(** ** The order of the generated moves *)

(** Source and jumped position of a move. *)
Definition move_key (m : move) : Z * Z := (m.1.1, m.1.2).

(** The pairs [(src, mid)] in the order the two loops of [get_valid_moves]
    visit them. *)
Definition loop_pairs (g : Graph) : list (Z * Z) :=
  src ← range (number_of_nodes g);
  (λ mid, (src, mid)) <$> default [] (adj g !! src).

Definition by_src (k1 k2 : Z * Z) : Prop := k1.1 <= k2.1.

#[global] Instance by_src_dec : RelDecision by_src :=
  λ k1 k2, decide (k1.1 <= k2.1).

Definition loop_pairs_ordered (n : Z) : bool :=
  match generate_triangle_graph n with
  | Ok g => bool_decide (NoDup (loop_pairs g))
            && bool_decide (StronglySorted by_src (loop_pairs g))
  | Raise _ => false
  end.

(** ** The symmetries of the triangle *)

(** A hole at row [r], column [c] of a triangle of [n] rows lies [r - c]
    steps from the right edge, [c] from the left edge and [n - 1 - r] from
    the bottom; the six symmetries of the triangle permute these three
    distances.  [triangle_symmetry n k] is the [k]-th of them, for [k] in
    0..5. *)
Definition triangle_symmetry (n k p : Z) : Z :=
  let a := row_of p - col_of p in
  let b := col_of p in
  let d := n - 1 - row_of p in
  let '(b', d') :=
    if k =? 0 then (b, d)
    else if k =? 1 then (d, a)
    else if k =? 2 then (a, b)
    else if k =? 3 then (a, d)
    else if k =? 4 then (d, b)
    else (b, a) in
  triangular_number (n - 1 - d') + b'.

(** Each symmetry keeps lines of three holes, and every hole is the image
    of one of [main]'s starting positions. *)
Definition symmetry_checks (n : Z) : bool :=
  let holes := range (triangular_number n) in
  forallb (λ k, forallb (λ a, forallb (λ b,
    if adjacent a b then
      forallb (λ c,
        implb (collinear n a b c)
              (collinear n (triangle_symmetry n k a) (triangle_symmetry n k b)
                         (triangle_symmetry n k c))) holes
    else true) holes) holes) (range 6)
  && forallb (λ p,
       existsb (λ s, existsb (λ k, triangle_symmetry n k s =? p) (range 6))
               (starting_nodes n)) holes.

(** ** Results and loops *)

Lemma bind_Ok {A B : Type} (r : res A) (k : A -> res B) (b : B) :
  (r ≫= k) = Ok b → ∃ a, r = Ok a ∧ k a = Ok b.
Proof. destruct r as [a|e]; simpl; [eauto | discriminate]. Qed.

Ltac inv_bind H :=
  let a := fresh "a" in
  let E := fresh "E" in
  apply bind_Ok in H as (a & E & H).

Lemma for_each_ind {A S : Type} (P : S -> Prop) (body : S -> A -> res S)
    (xs : list A) (acc r : S) :
  P acc →
  (∀ acc x acc', x ∈ xs → P acc → body acc x = Ok acc' → P acc') →
  for_each body xs acc = Ok r → P r.
Proof.
  revert acc. induction xs as [|x xs IH]; intros acc Hacc Hstep Hrun.
  - simpl in Hrun. congruence.
  - simpl in Hrun. inv_bind Hrun.
    apply (IH a); [ | | exact Hrun ].
    + eapply Hstep; [ | exact Hacc | exact E ]. left.
    + intros acc0 y acc1 Hy. apply Hstep. by right.
Qed.

Lemma for_each_total {A S : Type} (P : S -> Prop) (body : S -> A -> res S)
    (xs : list A) (acc : S) :
  P acc →
  (∀ acc x, x ∈ xs → P acc → ∃ acc', body acc x = Ok acc' ∧ P acc') →
  ∃ r, for_each body xs acc = Ok r.
Proof.
  revert acc. induction xs as [|x xs IH]; intros acc Hacc Hstep.
  - simpl. eauto.
  - simpl. destruct (Hstep acc x) as (acc' & Hb & Hacc'); [left | done | ].
    rewrite Hb. simpl. apply IH; [done | ].
    intros acc0 y Hy. apply Hstep. by right.
Qed.

Lemma elem_of_range (n x : Z) : x ∈ range n ↔ 0 <= x < n.
Proof.
  unfold range. rewrite list_elem_of_fmap. split.
  - intros (k & -> & Hk). apply elem_of_seq in Hk. lia.
  - intros Hx. exists (Z.to_nat x). split; [lia | ].
    apply elem_of_seq. lia.
Qed.

(** ** Python indexing *)

Lemma py_index_lt {A : Type} (l : list A) (i : Z) (k : nat) :
  py_index l i = Ok k → (k < length l)%nat.
Proof.
  unfold py_index.
  destruct ((0 <=? i) && (i <? Z.of_nat (length l))) eqn:E1.
  - intros [= <-]. apply andb_prop in E1 as [? ?]. lia.
  - destruct ((i <? 0) && (0 <=? Z.of_nat (length l) + i)) eqn:E2; [ | discriminate ].
    intros [= <-]. apply andb_prop in E2 as [? ?]. lia.
Qed.

Lemma py_index_nonneg {A : Type} (l : list A) (i : Z) (k : nat) :
  0 <= i → py_index l i = Ok k → k = Z.to_nat i ∧ i < Z.of_nat (length l).
Proof.
  intros Hi. unfold py_index.
  destruct ((0 <=? i) && (i <? Z.of_nat (length l))) eqn:E1.
  - intros [= <-]. apply andb_prop in E1 as [? ?]. lia.
  - destruct ((i <? 0) && (0 <=? Z.of_nat (length l) + i)) eqn:E2; [ | discriminate ].
    apply andb_prop in E2 as [? ?]. lia.
Qed.

Lemma py_index_in_range {A : Type} (l : list A) (i : Z) :
  0 <= i < Z.of_nat (length l) → py_index l i = Ok (Z.to_nat i).
Proof.
  intros Hi. unfold py_index.
  destruct ((0 <=? i) && (i <? Z.of_nat (length l))) eqn:E1; [done | ].
  apply andb_false_iff in E1 as [?|?]; lia.
Qed.

Lemma py_index_length {A B : Type} (l : list A) (l' : list B) (i : Z) :
  length l = length l' → py_index l i = py_index l' i.
Proof. intros E. unfold py_index. by rewrite E. Qed.

Lemma py_get_Ok {A : Type} (l : list A) (i : Z) (a : A) :
  py_get l i = Ok a ↔ ∃ k, py_index l i = Ok k ∧ l !! k = Some a.
Proof.
  unfold py_get. split.
  - intros H. inv_bind H. exists a0. split; [done | ].
    destruct (l !! a0); congruence.
  - intros (k & -> & Hk). simpl. by rewrite Hk.
Qed.

Lemma py_get_in_range {A : Type} (l : list A) (i : Z) :
  0 <= i < Z.of_nat (length l) → ∃ a, py_get l i = Ok a.
Proof.
  intros Hi. unfold py_get. rewrite py_index_in_range by done. simpl.
  destruct (l !! Z.to_nat i) eqn:E; [eauto | ].
  apply lookup_ge_None in E. lia.
Qed.

Lemma py_set_Ok {A : Type} (l : list A) (i : Z) (k : nat) (a : A) :
  py_index l i = Ok k → py_set l i a = Ok (<[k:=a]> l).
Proof. intros E. unfold py_set. by rewrite E. Qed.

(** ** Counting pegs *)

Lemma count_pegs_insert (bs : list bool) (k : nat) (old new : bool) :
  bs !! k = Some old →
  count_pegs (<[k:=new]> bs) = count_pegs bs - peg old + peg new.
Proof.
  revert k. induction bs as [|x bs IH]; intros [|k] Hk; simpl in *;
    try discriminate.
  - injection Hk as ->. unfold peg. lia.
  - rewrite (IH k Hk). lia.
Qed.

Lemma count_pegs_bounds (bs : list bool) : 0 <= count_pegs bs <= Z.of_nat (length bs).
Proof. induction bs as [|[] bs IH]; simpl; lia. Qed.

(** ** The move generator emits only checked moves *)

Lemma jump_generated (g : Graph) (bs : list bool) (src mid : Z)
    (src_nbrs : list Z) (m : move) :
  0 <= src < number_of_nodes g →
  py_get bs src = Ok true →
  neighbors g src = Ok src_nbrs →
  mid ∈ src_nbrs →
  jump g bs src mid = Ok (Some m) →
  generated g bs m.
Proof.
  intros Hsrc Hpeg Hnb Hmid H. unfold jump in H.
  case_bool_decide as Hne; [discriminate | ].
  inv_bind H. destruct a as [|]; simpl in H; [ | discriminate ].
  inv_bind H. rename a into src_lvl, E0 into Esl.
  inv_bind H. rename a into mid_lvl, E0 into Eml.
  inv_bind H. rename a into mid_nbrs, E0 into Emn.
  destruct (bool_decide (_ ∈ mid_nbrs)) eqn:Hin; simpl in H; [ | discriminate ].
  apply bool_decide_eq_true in Hin.
  inv_bind H. rewrite Hnb in E0. injection E0 as <-.
  case_bool_decide as Hnin; [discriminate | ].
  inv_bind H. destruct a as [|]; [discriminate | ].
  inv_bind H. destruct a as [|]; [discriminate | ].
  injection H as <-.
  unfold generated. do 5 (split; [done | ]).
  exists src_nbrs; exists mid_nbrs; exists src_lvl; exists mid_lvl.
  do 8 (split; [done | ]).
  intros Heq. rewrite bool_decide_true in E0 by done.
  inv_bind E0. injection E0 as E0.
  apply bool_decide_eq_false in E0. apply dec_stable in E0. by subst.
Qed.

Lemma moves_from_generated (g : Graph) (bs : list bool) (src : Z)
    (acc acc' : list move) :
  0 <= src < number_of_nodes g →
  (∀ m, m ∈ acc → generated g bs m) →
  moves_from g bs acc src = Ok acc' →
  ∀ m, m ∈ acc' → generated g bs m.
Proof.
  intros Hsrc Hacc H. unfold moves_from in H.
  inv_bind H. destruct a as [|]; [ | by injection H as <- ].
  inv_bind H. rename a into nbrs.
  revert H.
  apply (for_each_ind (λ ms, ∀ m, m ∈ ms → generated g bs m)); [done | ].
  intros ms mid ms' Hmid Hms Hj. unfold jump_over in Hj.
  inv_bind Hj. injection Hj as <-.
  destruct a as [m'|]; [ | done ].
  intros m [Hm|Hm]%elem_of_app; [by apply Hms | ].
  apply list_elem_of_singleton in Hm as ->.
  by eapply jump_generated.
Qed.

Lemma get_valid_moves_generated (g : Graph) (bs : list bool) (moves : list move) :
  get_valid_moves g bs = Ok moves → ∀ m, m ∈ moves → generated g bs m.
Proof.
  unfold get_valid_moves.
  apply (for_each_ind (λ ms, ∀ m, m ∈ ms → generated g bs m)).
  - intros m Hm. by apply elem_of_nil in Hm.
  - intros acc src acc' Hsrc%elem_of_range Hacc Hrun.
    by eapply moves_from_generated.
Qed.

(** ** The move generator raises nothing on a closed graph *)

Lemma closed_graph_node (g : Graph) (u : Z) :
  closed_graph g = true →
  0 <= u < number_of_nodes g →
  ∃ l ns, level g u = Ok l ∧ neighbors g u = Ok ns ∧
          ∀ v, v ∈ ns → 0 <= v < number_of_nodes g.
Proof.
  intros Hg Hu. unfold closed_graph in Hg.
  rewrite forallb_forall in Hg.
  specialize (Hg u). rewrite <- list_elem_of_In, elem_of_range in Hg.
  specialize (Hg Hu). unfold closed_node in Hg. unfold level, neighbors.
  destruct (node g !! u) as [[l|]|]; try discriminate.
  destruct (adj g !! u) as [ns|]; try discriminate.
  exists l, ns. do 2 (split; [done | ]).
  intros v Hv. rewrite forallb_forall in Hg.
  apply list_elem_of_In, Hg in Hv. apply andb_prop in Hv as [? ?]. lia.
Qed.

Lemma jump_total (g : Graph) (bs : list bool) (src mid : Z) :
  closed_graph g = true →
  number_of_nodes g <= Z.of_nat (length bs) →
  0 <= src < number_of_nodes g →
  0 <= mid < number_of_nodes g →
  ∃ o, jump g bs src mid = Ok o.
Proof.
  intros Hg Hlen Hsrc Hmid. unfold jump.
  case_bool_decide; [eauto | ].
  destruct (py_get_in_range bs mid) as [mp ->]; [lia | ]. simpl.
  destruct mp; simpl; [ | eauto ].
  destruct (closed_graph_node g src Hg Hsrc) as (sl & sn & -> & -> & Hsn).
  destruct (closed_graph_node g mid Hg Hmid) as (ml & mn & -> & -> & Hmn).
  simpl. set (dest := if bool_decide (sl ≠ ml) then _ else _).
  destruct (bool_decide (dest ∈ mn)) eqn:Hd; simpl; [ | eauto ].
  apply bool_decide_eq_true, Hmn in Hd.
  case_bool_decide; [eauto | ].
  destruct (closed_graph_node g dest Hg Hd) as (dl & dn & -> & _ & _).
  destruct (py_get_in_range bs dest) as [dp Hdp]; [lia | ].
  case_bool_decide; simpl.
  - case_bool_decide; simpl; [eauto | ]. rewrite Hdp. simpl.
    destruct dp; eauto.
  - rewrite Hdp. simpl. destruct dp; eauto.
Qed.

Lemma get_valid_moves_total (g : Graph) (bs : list bool) :
  closed_graph g = true →
  number_of_nodes g <= Z.of_nat (length bs) →
  ∃ moves, get_valid_moves g bs = Ok moves.
Proof.
  intros Hg Hlen. unfold get_valid_moves.
  apply (for_each_total (λ _, True)); [done | ].
  intros acc src Hsrc%elem_of_range _. unfold moves_from.
  destruct (py_get_in_range bs src) as [sp ->]; [lia | ]. simpl.
  destruct sp; [ | eauto ].
  destruct (closed_graph_node g src Hg Hsrc) as (sl & sn & _ & -> & Hsn).
  simpl.
  destruct (for_each_total (λ _, True) (jump_over g bs src) sn acc) as [r Hr];
    [done | | eauto ].
  intros acc0 mid Hmid%Hsn _. unfold jump_over.
  destruct (jump_total g bs src mid) as [o ->]; [done.. | ].
  simpl. eauto.
Qed.

(** ** Applying a move *)

Lemma apply_move_total (bs : list bool) (src mid dest : Z) (x y z : bool) :
  py_get bs src = Ok x → py_get bs mid = Ok y → py_get bs dest = Ok z →
  ∃ ks km kd,
    py_index bs src = Ok ks ∧ py_index bs mid = Ok km ∧
    py_index bs dest = Ok kd ∧
    apply_move bs (src, mid, dest)
    = Ok (<[kd:=true]> (<[km:=false]> (<[ks:=false]> bs))).
Proof.
  intros (ks & Hks & _)%py_get_Ok (km & Hkm & _)%py_get_Ok
         (kd & Hkd & _)%py_get_Ok.
  exists ks, km, kd. do 3 (split; [done | ]). unfold apply_move.
  rewrite (py_set_Ok _ _ _ _ Hks). simpl.
  rewrite (py_set_Ok _ mid km).
  2:{ rewrite <- Hkm. apply py_index_length. by rewrite length_insert. }
  simpl. apply py_set_Ok. rewrite <- Hkd. apply py_index_length.
  by rewrite !length_insert.
Qed.

Lemma apply_move_length (bs bs' : list bool) (m : move) :
  apply_move bs m = Ok bs' → length bs' = length bs.
Proof.
  destruct m as [[src mid] dest]. unfold apply_move, py_set. intros H.
  inv_bind H. inv_bind E. injection E as <-.
  inv_bind H. inv_bind E. injection E as <-.
  inv_bind H. injection H as <-. by rewrite !length_insert.
Qed.

(** On a closed graph no index wraps around, so the three positions of a
    generated move are three different cells. *)
Lemma generated_count (g : Graph) (bs bs' : list bool) (m : move) :
  closed_graph g = true →
  generated g bs m →
  apply_move bs m = Ok bs' →
  count_pegs bs' = count_pegs bs - 1.
Proof.
  destruct m as [[src mid] dest].
  intros Hg (Hsrc & Hs & Hm & Hd & Hne & sn & mn & sl & ml & Hsn & Hmid & Hmn
             & _ & _ & _ & Hdest & _) Happ.
  destruct (closed_graph_node g src Hg Hsrc) as (? & ? & _ & E & Hin).
  rewrite Hsn in E. injection E as <-.
  apply Hin in Hmid.
  destruct (closed_graph_node g mid Hg Hmid) as (? & ? & _ & E & Hin').
  rewrite Hmn in E. injection E as <-.
  apply Hin' in Hdest.
  destruct (apply_move_total bs src mid dest _ _ _ Hs Hm Hd)
    as (ks & km & kd & Hks & Hkm & Hkd & E).
  rewrite E in Happ. injection Happ as <-.
  apply py_get_Ok in Hs as (? & E1 & Hs). rewrite Hks in E1. injection E1 as <-.
  apply py_get_Ok in Hm as (? & E1 & Hm). rewrite Hkm in E1. injection E1 as <-.
  apply py_get_Ok in Hd as (? & E1 & Hd). rewrite Hkd in E1. injection E1 as <-.
  apply py_index_nonneg in Hks as [-> _]; [ | lia ].
  apply py_index_nonneg in Hkm as [-> _]; [ | lia ].
  apply py_index_nonneg in Hkd as [-> _]; [ | lia ].
  assert (Z.to_nat src ≠ Z.to_nat mid) by lia.
  assert (Z.to_nat dest ≠ Z.to_nat src) by congruence.
  assert (Z.to_nat dest ≠ Z.to_nat mid) by congruence.
  rewrite (count_pegs_insert _ _ false).
  2:{ by rewrite !list_lookup_insert_ne. }
  rewrite (count_pegs_insert _ _ true).
  2:{ by rewrite list_lookup_insert_ne. }
  rewrite (count_pegs_insert _ _ true) by done.
  unfold peg. lia.
Qed.

(** ** The store and the globals along a search *)

Lemma load_Ok (w : World) (l : loc) (b : list bool) :
  load w l = Ok b ↔ store w !! l = Some b.
Proof. unfold load. destruct (store w !! l); split; congruence. Qed.

Lemma store_lookup_new (s : list (list bool)) (b : list bool) :
  (s ++ [b]) !! length s = Some b.
Proof. by rewrite list_lookup_middle. Qed.

Lemma store_insert_new (s : list (list bool)) (b b1 : list bool) :
  <[length s:=b1]> (s ++ [b]) = s ++ [b1].
Proof.
  rewrite insert_app_r_alt by lia. by replace (length s - length s)%nat with 0%nat by lia.
Qed.

Lemma setitem_new (w : World) (s : list (list bool)) (b : list bool)
    (i : Z) (v : bool) :
  store w = s ++ [b] →
  setitem w (length s) i v
  = b' ← py_set b i v; Ok (set_store w (s ++ [b'])).
Proof.
  intros Hs. unfold setitem, load. rewrite Hs, store_lookup_new. simpl.
  destruct (py_set b i v) as [b'|e]; simpl; [ | done ].
  by rewrite store_insert_new.
Qed.

(** [make_move] allocates one list: the copy of the board with the move
    made on it; the caller's board and the globals apart from the move
    counter are left alone. *)
Lemma make_move_eq (w : World) (bs : loc) (b : list bool) (m : move) :
  load w bs = Ok b →
  make_move w bs m
  = b' ← apply_move b m;
    Ok (length (store w), board_hash b',
        mkWorld (store w ++ [b']) (FINAL_MOVE_LIST w) (N_MOVES w + 1)
                (SEEN w) (SEEN_adds w)).
Proof.
  intros Hb. destruct m as [[src mid] dest].
  unfold make_move, list_copy, apply_move.
  change (load (count_move w) bs) with (load w bs). rewrite Hb. simpl.
  rewrite (setitem_new _ (store w) b) by done.
  destruct (py_set b src false) as [b1|e]; simpl; [ | done ].
  rewrite (setitem_new _ (store w) b1) by done.
  destruct (py_set b1 mid false) as [b2|e]; simpl; [ | done ].
  rewrite (setitem_new _ (store w) b2) by done.
  destruct (py_set b2 dest true) as [b3|e]; simpl; [ | done ].
  unfold load. simpl. by rewrite store_lookup_new.
Qed.

Lemma grows_same (w w' : World) :
  store w `prefix_of` store w' → SEEN w' = SEEN w →
  SEEN_adds w' = SEEN_adds w → grows w w'.
Proof.
  intros Hs Hseen Hadds. split; [done | ]. exists [].
  rewrite app_nil_r. split; [done | ]. split; [set_solver | ].
  split; [constructor | ]. intros h Hh. by apply elem_of_nil in Hh.
Qed.

Lemma grows_refl (w : World) : grows w w.
Proof. by apply grows_same. Qed.

Lemma grows_trans (w1 w2 w3 : World) : grows w1 w2 → grows w2 w3 → grows w1 w3.
Proof.
  intros (Hs1 & a1 & Ha1 & Hn1 & Hd1 & Hf1) (Hs2 & a2 & Ha2 & Hn2 & Hd2 & Hf2).
  split; [by etrans | ]. exists (a1 ++ a2).
  split; [by rewrite Ha2, Ha1, app_assoc | ].
  split; [rewrite Hn2, Hn1; set_solver | ].
  split.
  - apply NoDup_app. split; [done | ]. split; [ | done ].
    intros h Hh1 Hh2. apply (Hf2 h Hh2). rewrite Hn1. set_solver.
  - intros h [Hh|Hh]%elem_of_app; [by apply Hf1 | ].
    intros Hin. apply (Hf2 h Hh). rewrite Hn1. set_solver.
Qed.

Lemma grows_enter (w : World) (h : string) (m : move) :
  h ∉ SEEN w → grows w (enter w h m).
Proof.
  intros Hh. split; [done | ]. exists [h]. simpl.
  split; [done | ]. split; [set_solver | ].
  split; [apply NoDup_singleton | ].
  intros h' ->%list_elem_of_singleton. done.
Qed.

Lemma grows_seen (w w' : World) : grows w w' → SEEN w ⊆ SEEN w'.
Proof. intros (_ & a & _ & -> & _). set_solver. Qed.

Lemma grows_load (w w' : World) (l : loc) (b : list bool) :
  grows w w' → load w l = Ok b → load w' l = Ok b.
Proof.
  intros [Hs _]. rewrite !load_Ok. intros Hb.
  by eapply prefix_lookup_Some.
Qed.

Lemma pop_move_last (w : World) (l : list move) (m : move) :
  FINAL_MOVE_LIST w = l ++ [m] →
  ∃ w', pop_move w = Ok w' ∧ FINAL_MOVE_LIST w' = l ∧
        store w' = store w ∧ SEEN w' = SEEN w ∧ SEEN_adds w' = SEEN_adds w.
Proof.
  intros E. unfold pop_move. rewrite E.
  destruct (l ++ [m]) eqn:El; [by destruct l | ].
  rewrite <- El. eexists. split; [done | ]. simpl.
  by rewrite removelast_last.
Qed.

(** ** What a returning call of [solve] leaves behind *)

Lemma search_sound (g : Graph) (rec : loc -> World -> outcome) (bs : loc)
    (b : list bool) :
  (∀ new_bs w b' r w', load w new_bs = Ok b' →
     rec new_bs w = Some (Ok (r, w')) → solve_post g b' w r w') →
  ∀ moves w r w',
    load w bs = Ok b →
    (∀ m, m ∈ moves → generated g b m) →
    search rec bs moves w = Some (Ok (r, w')) →
    search_post g b moves w r w'.
Proof.
  intros Hrec. induction moves as [|m rest IH]; intros w r w' Hb Hgen Hrun.
  - simpl in Hrun. injection Hrun as <- <-. split; [apply grows_refl | ].
    split; [done | ]. intros m b' Hm. by apply elem_of_nil in Hm.
  - simpl in Hrun. rewrite (make_move_eq w bs b m Hb) in Hrun.
    destruct (apply_move b m) as [b1|e] eqn:Hm; simpl in Hrun; [ | done ].
    set (w1 := mkWorld _ _ _ _ _) in Hrun.
    assert (Hg1 : grows w w1) by (apply grows_same; [by apply prefix_app_r | done..]).
    assert (Hrest : ∀ m0, m0 ∈ rest → generated g b m0)
      by (intros m0 Hm0; apply Hgen; by right).
    case_bool_decide as Hseen.
    + apply IH in Hrun; [ | by eapply grows_load | done ].
      destruct Hrun as [Hg2 Hr]. split; [by eapply grows_trans | ].
      destruct r; [done | ]. destruct Hr as [Hp Hch]. split; [done | ].
      intros m0 b0 [->|Hm0]%elem_of_cons Hb0; [ | by eapply Hch ].
      rewrite Hm in Hb0. injection Hb0 as <-.
      by eapply (grows_seen w1 w').
    + set (w2 := enter w1 (board_hash b1) m) in Hrun.
      assert (Hg2 : grows w1 w2) by by apply grows_enter.
      assert (Hb1 : load w2 (length (store w)) = Ok b1)
        by (apply load_Ok; simpl; apply store_lookup_new).
      destruct (rec (length (store w)) w2) as [[[[|] w3]|e]|] eqn:Hcall;
        try done.
      * injection Hrun as <- <-.
        destruct (Hrec _ _ _ _ _ Hb1 Hcall) as [Hg3 (path & final & Hp & Hpl & Hc)].
        split; [eauto using grows_trans | ].
        exists (m :: path), final. split; [ | split; [ | done ] ].
        -- rewrite Hp. simpl. by rewrite <- app_assoc.
        -- econstructor; [ | done | done ]. apply Hgen. left.
      * destruct (Hrec _ _ _ _ _ Hb1 Hcall) as [Hg3 [Hp Hch3]].
        destruct (pop_move_last w3 (FINAL_MOVE_LIST w) m Hp)
          as (w4 & Hpop & Hp4 & Hs4 & Hn4 & Ha4).
        rewrite Hpop in Hrun.
        assert (Hg4 : grows w3 w4)
          by (apply grows_same; [by rewrite Hs4 | done..]).
        assert (Hg04 : grows w w4) by eauto using grows_trans.
        apply IH in Hrun; [ | by eapply grows_load | done ].
        destruct Hrun as [Hg5 Hr]. split; [by eapply grows_trans | ].
        destruct r.
        -- destruct Hr as (path & final & Hp5 & Hpl & Hc).
           exists path, final. by rewrite Hp5, Hp4.
        -- destruct Hr as [Hp5 Hch]. split; [by rewrite Hp5, Hp4 | ].
           intros m0 b0 [->|Hm0]%elem_of_cons Hb0; [ | by eapply Hch ].
           rewrite Hm in Hb0. injection Hb0 as <-.
           apply (grows_seen w2 w'); [eauto using grows_trans | ].
           unfold w2. simpl. set_solver.
Qed.

Lemma solve_sound (g : Graph) (fuel : nat) :
  ∀ bs w b r w',
    load w bs = Ok b →
    solve fuel g bs w = Some (Ok (r, w')) →
    solve_post g b w r w'.
Proof.
  induction fuel as [|fuel IH]; intros bs w b r w' Hb Hrun; [done | ].
  simpl in Hrun. rewrite Hb in Hrun.
  case_bool_decide as Hone.
  - injection Hrun as <- <-. split; [apply grows_refl | ].
    exists [], b. rewrite app_nil_r. split; [done | ].
    split; [constructor | done].
  - destruct (get_valid_moves g b) as [moves|e] eqn:Hmoves; [ | done ].
    case_bool_decide as Hnil.
    + injection Hrun as <- <-. split; [apply grows_refl | ].
      split; [done | ]. intros moves' m b' E Hm.
      rewrite Hmoves in E. injection E as <-.
      destruct moves; [by apply elem_of_nil in Hm | done].
    + pose proof (get_valid_moves_generated g b moves Hmoves) as Hgen.
      apply (search_sound g (solve fuel g) bs b IH) in Hrun; [ | done..].
      destruct Hrun as [Hg Hr]. split; [done | ].
      destruct r; [done | ]. destruct Hr as [Hp Hch]. split; [done | ].
      intros moves' m b' E. rewrite Hmoves in E. injection E as <-.
      apply Hch.
Qed.

(** ** Every call returns *)

Lemma generated_apply (g : Graph) (b : list bool) (m : move) :
  generated g b m → ∃ b', apply_move b m = Ok b'.
Proof.
  destruct m as [[src mid] dest]. intros (_ & Hs & Hm & Hd & _).
  destruct (apply_move_total b src mid dest _ _ _ Hs Hm Hd)
    as (? & ? & ? & _ & _ & _ & E).
  eauto.
Qed.

Lemma search_total (g : Graph) (rec : loc -> World -> outcome) (bs : loc)
    (b : list bool) :
  (∀ new_bs w b' r w', load w new_bs = Ok b' →
     rec new_bs w = Some (Ok (r, w')) → solve_post g b' w r w') →
  (∀ new_bs w b' m, load w new_bs = Ok b' →
     generated g b m → apply_move b m = Ok b' →
     ∃ r w', rec new_bs w = Some (Ok (r, w'))) →
  ∀ moves w,
    load w bs = Ok b →
    (∀ m, m ∈ moves → generated g b m) →
    ∃ r w', search rec bs moves w = Some (Ok (r, w')).
Proof.
  intros Hpost Hrec. induction moves as [|m rest IH]; intros w Hb Hgen.
  - simpl. eauto.
  - simpl. rewrite (make_move_eq w bs b m Hb).
    assert (Hm : generated g b m) by (apply Hgen; left).
    destruct (generated_apply g b m Hm) as [b1 Hb1]. rewrite Hb1. simpl.
    set (w1 := mkWorld _ _ _ _ _).
    assert (Hg1 : grows w w1) by (apply grows_same; [by apply prefix_app_r | done..]).
    assert (Hrest : ∀ m0, m0 ∈ rest → generated g b m0)
      by (intros m0 Hm0; apply Hgen; by right).
    case_bool_decide as Hseen.
    + apply IH; [by eapply grows_load | done].
    + set (w2 := enter w1 (board_hash b1) m).
      assert (Hl : load w2 (length (store w)) = Ok b1)
        by (apply load_Ok; simpl; apply store_lookup_new).
      destruct (Hrec _ _ _ _ Hl Hm Hb1) as (r & w3 & Hcall). rewrite Hcall.
      destruct r; [eauto | ].
      destruct (Hpost _ _ _ _ _ Hl Hcall) as [Hg3 [Hp _]].
      destruct (pop_move_last w3 (FINAL_MOVE_LIST w) m Hp)
        as (w4 & Hpop & _ & Hs4 & Hn4 & Ha4).
      rewrite Hpop. apply IH; [ | done ].
      eapply grows_load; [ | exact Hb ].
      eapply grows_trans; [exact Hg1 | ].
      eapply grows_trans; [by apply grows_enter | ].
      eapply grows_trans; [exact Hg3 | ].
      apply grows_same; [by rewrite Hs4 | done..].
Qed.

Lemma solve_total (g : Graph) :
  closed_graph g = true →
  ∀ (fuel : nat) bs w b,
    load w bs = Ok b →
    number_of_nodes g <= Z.of_nat (length b) →
    Z.max 1 (count_pegs b) <= Z.of_nat fuel →
    ∃ r w', solve fuel g bs w = Some (Ok (r, w')).
Proof.
  intros Hg. induction fuel as [|fuel IH]; intros bs w b Hb Hlen Hfuel; [lia | ].
  simpl. rewrite Hb. case_bool_decide as Hone; [eauto | ].
  destruct (get_valid_moves_total g b Hg Hlen) as [moves Hmoves].
  rewrite Hmoves. case_bool_decide; [eauto | ].
  apply (search_total g (solve fuel g) bs b); [ | | done | ].
  - intros. by eapply solve_sound.
  - intros new_bs w0 b' m Hl Hm Happ.
    pose proof (generated_count g b b' m Hg Hm Happ) as Hc.
    pose proof (apply_move_length b b' m Happ) as Hl'.
    pose proof (count_pegs_bounds b').
    eapply IH; [done | lia | lia].
  - by apply get_valid_moves_generated.
Qed.

(** ** A second call after a failed one *)

Lemma search_again (g : Graph) (rec : loc -> World -> outcome) (bs : loc)
    (b : list bool) :
  ∀ moves w,
    load w bs = Ok b →
    (∀ m, m ∈ moves → generated g b m) →
    (∀ m b', m ∈ moves → apply_move b m = Ok b' → board_hash b' ∈ SEEN w) →
    ∃ w', search rec bs moves w = Some (Ok (false, w')) ∧
          FINAL_MOVE_LIST w' = FINAL_MOVE_LIST w ∧ SEEN w' = SEEN w ∧
          SEEN_adds w' = SEEN_adds w ∧ store w `prefix_of` store w'.
Proof.
  induction moves as [|m rest IH]; intros w Hb Hgen Hseen.
  - simpl. by exists w.
  - simpl. rewrite (make_move_eq w bs b m Hb).
    destruct (generated_apply g b m) as [b1 Hb1]; [apply Hgen; left | ].
    rewrite Hb1. simpl. set (w1 := mkWorld _ _ _ _ _).
    rewrite bool_decide_true by (apply (Hseen m b1); [left | done]).
    destruct (IH w1) as (w' & Hrun & Hp & Hs & Ha & Hst).
    + apply load_Ok. simpl. apply lookup_app_l_Some. by apply load_Ok.
    + intros m0 Hm0. apply Hgen. by right.
    + intros m0 b0 Hm0. apply Hseen. by right.
    + exists w'. do 4 (split; [done | ]).
      etrans; [ | exact Hst ]. by apply prefix_app_r.
Qed.

(** ** More fuel does not change a result *)

Lemma search_mono (rec rec' : loc -> World -> outcome) (bs : loc) :
  (∀ l w x, rec l w = Some x → rec' l w = Some x) →
  ∀ moves w x, search rec bs moves w = Some x → search rec' bs moves w = Some x.
Proof.
  intros Hrec. induction moves as [|m rest IH]; intros w x H; [done | ].
  simpl in *. destruct (make_move w bs m) as [[[new_bs h] w1]|e]; [ | done ].
  case_bool_decide; [by apply IH | ].
  destruct (rec new_bs (enter w1 h m)) as [o|] eqn:Hcall; [ | done ].
  rewrite (Hrec _ _ _ Hcall).
  destruct o as [[[|] w2]|e]; try done.
  destruct (pop_move w2); [by apply IH | done].
Qed.

Lemma solve_mono (g : Graph) (fuel fuel' : nat) (bs : loc) (w : World) (x : res (bool * World)) :
  (fuel <= fuel')%nat → solve fuel g bs w = Some x → solve fuel' g bs w = Some x.
Proof.
  revert fuel' bs w x. induction fuel as [|fuel IH]; intros fuel' bs w x Hle H;
    [done | ].
  destruct fuel' as [|fuel']; [lia | ]. simpl in *.
  destruct (load w bs) as [b|e]; [ | done ].
  case_bool_decide; [done | ].
  destruct (get_valid_moves g b) as [moves|e]; [ | done ].
  case_bool_decide; [done | ].
  revert H. apply search_mono. intros l w0 x0. apply IH. lia.
Qed.

Lemma solve_returns_load (g : Graph) (fuel : nat) (bs : loc) (w : World)
    (r : bool) (w' : World) :
  solve fuel g bs w = Some (Ok (r, w')) → ∃ b, load w bs = Ok b.
Proof.
  destruct fuel as [|fuel]; [done | ]. simpl.
  destruct (load w bs) as [b|e]; [eauto | done].
Qed.

(** ** The boards of four, five and six rows *)

Lemma triangle_checks_456 (n : Z) : 4 <= n <= 6 → triangle_checks n = true.
Proof.
  intros Hn.
  assert (n = 4 ∨ n = 5 ∨ n = 6) as [-> | [-> | ->]] by lia;
    vm_compute; reflexivity.
Qed.

Lemma triangle_graph_built (n : Z) :
  4 <= n <= 6 → ∃ g, generate_triangle_graph n = Ok g.
Proof.
  intros Hn%triangle_checks_456. unfold triangle_checks in Hn.
  destruct (generate_triangle_graph n); [eauto | done].
Qed.

Lemma triangle_graph_facts (n : Z) (g : Graph) :
  4 <= n <= 6 → generate_triangle_graph n = Ok g →
  number_of_nodes g = triangular_number n ∧ closed_graph g = true ∧
  jump_geometry n g = true ∧ edges_adjacent_rows g = true.
Proof.
  intros Hn%triangle_checks_456 Hg. unfold triangle_checks in Hn.
  rewrite Hg in Hn.
  apply andb_prop in Hn as [Hn H4]. apply andb_prop in Hn as [Hn H3].
  apply andb_prop in Hn as [H1 H2]. apply Z.eqb_eq in H1. done.
Qed.

(** On a closed graph the positions of a generated move are ordinary
    indices of the board. *)
Lemma generated_cells (g : Graph) (bs : list bool) (src mid dest : Z) :
  closed_graph g = true →
  generated g bs (src, mid, dest) →
  (0 <= src < number_of_nodes g ∧ 0 <= mid < number_of_nodes g ∧
   0 <= dest < number_of_nodes g) ∧
  bs !! Z.to_nat src = Some true ∧ bs !! Z.to_nat mid = Some true ∧
  bs !! Z.to_nat dest = Some false.
Proof.
  intros Hg (Hsrc & Hs & Hm & Hd & Hne & sn & mn & sl & ml & Hsn & Hmid & Hmn
             & _ & _ & _ & Hdest & _).
  destruct (closed_graph_node g src Hg Hsrc) as (? & ? & _ & E & Hin).
  rewrite Hsn in E. injection E as <-. apply Hin in Hmid.
  destruct (closed_graph_node g mid Hg Hmid) as (? & ? & _ & E & Hin').
  rewrite Hmn in E. injection E as <-. apply Hin' in Hdest.
  split; [done | ].
  apply py_get_Ok in Hs as (ks & Hks & Hs).
  apply py_get_Ok in Hm as (km & Hkm & Hm).
  apply py_get_Ok in Hd as (kd & Hkd & Hd).
  apply py_index_nonneg in Hks as [-> _]; [ | lia ].
  apply py_index_nonneg in Hkm as [-> _]; [ | lia ].
  apply py_index_nonneg in Hkd as [-> _]; [ | lia ].
  done.
Qed.

Lemma generated_collinear (n : Z) (g : Graph) (bs : list bool) (src mid dest : Z) :
  jump_geometry n g = true →
  generated g bs (src, mid, dest) →
  collinear n src mid dest = true.
Proof.
  intros Hgeo (Hsrc & _ & _ & _ & Hne & sn & mn & sl & ml & Hsn & Hmid & Hmn
               & Hsl & Hml & Hdest & Hin & Hnin & Hlvl).
  unfold jump_geometry in Hgeo. rewrite forallb_forall in Hgeo.
  specialize (Hgeo src). rewrite <- list_elem_of_In, elem_of_range in Hgeo.
  specialize (Hgeo Hsrc). rewrite Hsn, Hsl in Hgeo.
  rewrite forallb_forall in Hgeo. specialize (Hgeo mid).
  rewrite <- list_elem_of_In in Hgeo. specialize (Hgeo Hmid).
  rewrite Hmn, Hml in Hgeo. simpl in Hgeo. rewrite <- Hdest in Hgeo.
  rewrite (bool_decide_true (mid ≠ src)) in Hgeo by done.
  rewrite (bool_decide_true (dest ∈ mn)) in Hgeo by done.
  rewrite (bool_decide_false (dest ∈ sn)) in Hgeo by done.
  simpl in Hgeo.
  destruct (decide (sl = ml)) as [Heq|Hneq].
  - rewrite (Hlvl Heq) in Hgeo.
    rewrite (bool_decide_true (ml = ml)) in Hgeo by done.
    by rewrite orb_true_r in Hgeo.
  - by rewrite (bool_decide_true (sl ≠ ml)) in Hgeo by done.
Qed.

Lemma generated_legal (n : Z) (g : Graph) (bs : list bool) (m : move) :
  closed_graph g = true → jump_geometry n g = true →
  generated g bs m → legal_move n bs m.
Proof.
  destruct m as [[src mid] dest]. intros Hg Hgeo Hm.
  destruct (generated_cells g bs src mid dest Hg Hm) as (_ & Hs & Hmid & Hd).
  unfold legal_move. do 3 (split; [done | ]).
  by eapply generated_collinear.
Qed.

Lemma plays_impl (P Q : list bool -> move -> Prop) (b : list bool)
    (path : list move) (final : list bool) :
  (∀ b m, P b m → Q b m) → plays P b path final → plays Q b path final.
Proof.
  intros HPQ. induction 1 as [b|b m b' path final Hm Happ _ IH].
  - constructor.
  - econstructor; [by apply HPQ | done | done].
Qed.

(** ** The driver passes one state from invocation to invocation *)

Lemma try_start_grows (fuel : nat) (g : Graph) (w : World) (current_node : Z)
    (r : bool) (w' : World) :
  try_start fuel g w current_node = Some (Ok (r, w')) → grows w w'.
Proof.
  unfold try_start. set (full := replicate _ _).
  rewrite (setitem_new _ (store w) full) by done.
  destruct (py_set full current_node false) as [b|e]; simpl; [ | done ].
  intros Hrun.
  destruct (solve_returns_load _ _ _ _ _ _ Hrun) as [b0 Hb0].
  destruct (solve_sound _ _ _ _ _ _ _ Hb0 Hrun) as [Hg _].
  eapply grows_trans; [ | exact Hg ].
  apply grows_same; [by apply prefix_app_r | done..].
Qed.

Lemma try_all_grows (fuel : nat) (g : Graph) (nodes : list Z) :
  ∀ w r w', try_all fuel g nodes w = Some (Ok (r, w')) → grows w w'.
Proof.
  induction nodes as [|c rest IH]; intros w r w' H; simpl in H.
  - injection H as <- <-. apply grows_refl.
  - destruct (try_start fuel g w c) as [[[[|] w1]|e]|] eqn:Hstart; try done.
    + injection H as <- <-. by eapply try_start_grows.
    + eapply grows_trans; [by eapply try_start_grows | by eapply IH].
Qed.

(** Over a whole run of [main], every encoding is added to [SEEN] once. *)
Lemma main_seen_once (fuel : nat) (n_rows : Z) (r : exit) (w : World) :
  main fuel n_rows = Some (Ok (r, w)) →
  NoDup (SEEN_adds w) ∧ SEEN w = list_to_set (SEEN_adds w).
Proof.
  unfold main. destruct ((n_rows <? 4) || (n_rows >? 6)).
  { intros [= <- <-]. split; [constructor | done]. }
  destruct (generate_triangle_graph n_rows) as [g|e]; [ | done ].
  intros (_ & adds & Ha & Hs & Hd & _)%try_all_grows.
  simpl in Ha, Hs. subst adds. split; [done | ]. rewrite Hs. set_solver.
Qed.

(** ** The graph of four rows is built *)

Lemma triangle4_built : generate_triangle_graph 4 = Ok triangle4.
Proof. vm_compute. reflexivity. Qed.

(** The run of [main] on four rows: hole 0 fails, hole 1 is solved in the
    eight jumps that the program prints. *)
Example main_four_rows :
  ∃ w, main 9 4
       = Some (Ok (ExitSolved [(6, 3, 1); (0, 1, 3); (5, 2, 0); (3, 4, 5);
                               (9, 5, 2); (0, 2, 5); (7, 8, 9); (9, 5, 2)], w))
       ∧ N_MOVES w = 77.
Proof. eexists. split; [vm_compute; reflexivity | reflexivity]. Qed.

(** * The claims *)

(** C5: for [n] in {4,5,6}, [generate_triangle_graph n] returns a graph
    with exactly [T(n) = n(n+1)/2] nodes, and for every edge (every [v]
    among the neighbours of a node [u]) the levels of [u] and [v] differ by
    at most 1. *)
Theorem triangle_graph_nodes_and_edges (n : Z) :
  4 <= n <= 6 →
  ∃ g, generate_triangle_graph n = Ok g ∧
       number_of_nodes g = triangular_number n ∧
       triangular_number n = n * (n + 1) / 2 ∧
       ∀ u v ns, neighbors g u = Ok ns → v ∈ ns →
                 ∃ lu lv, level g u = Ok lu ∧ level g v = Ok lv ∧
                          Z.abs (lu - lv) <= 1.
Proof.
  intros Hn. destruct (triangle_graph_built n Hn) as [g Hg]. exists g.
  destruct (triangle_graph_facts n g Hn Hg) as (Hnodes & _ & _ & Hedges).
  do 3 (split; [done | ]).
  intros u v ns Hu Hv. unfold neighbors in Hu.
  destruct (adj g !! u) as [ns'|] eqn:Hadj; [ | done ]. injection Hu as ->.
  unfold edges_adjacent_rows in Hedges. rewrite forallb_forall in Hedges.
  specialize (Hedges (u, ns)). rewrite <- list_elem_of_In in Hedges.
  rewrite elem_of_map_to_list in Hedges. specialize (Hedges Hadj).
  simpl in Hedges. rewrite forallb_forall in Hedges.
  apply list_elem_of_In, Hedges in Hv. unfold near_rows in Hv.
  destruct (level g u) as [lu|]; [ | done ].
  destruct (level g v) as [lv|]; [ | done ].
  exists lu, lv. do 2 (split; [done | ]). by apply Z.leb_le.
Qed.

Lemma triangle_graph_nodes_and_edges_witness :
  ∃ g, generate_triangle_graph 5 = Ok g ∧
       number_of_nodes g = triangular_number 5 ∧
       triangular_number 5 = 5 * (5 + 1) / 2 ∧
       ∀ u v ns, neighbors g u = Ok ns → v ∈ ns →
                 ∃ lu lv, level g u = Ok lu ∧ level g v = Ok lv ∧
                          Z.abs (lu - lv) <= 1.
Proof. apply (triangle_graph_nodes_and_edges 5). lia. Defined.

(** C4: on the graph built for [n] in {4,5,6}, the move generator returns a
    list of moves for every board of [T(n)] holes, and every move
    [(src, mid, dest)] it returns for any board has pegs at [src] and
    [mid] and none at [dest], [dest] among the neighbours of [mid] and not
    among those of [src], and [dest] on the level of [src] and [mid] when
    these two share a level. *)
Theorem generated_moves_checked (n : Z) (g : Graph) (bs : list bool) :
  4 <= n <= 6 →
  generate_triangle_graph n = Ok g →
  (Z.of_nat (length bs) = triangular_number n →
   ∃ moves, get_valid_moves g bs = Ok moves) ∧
  ∀ moves src mid dest,
    get_valid_moves g bs = Ok moves →
    (src, mid, dest) ∈ moves →
    bs !! Z.to_nat src = Some true ∧ bs !! Z.to_nat mid = Some true ∧
    bs !! Z.to_nat dest = Some false ∧
    (∃ mid_nbrs, neighbors g mid = Ok mid_nbrs ∧ dest ∈ mid_nbrs) ∧
    (∃ src_nbrs, neighbors g src = Ok src_nbrs ∧ dest ∉ src_nbrs) ∧
    (∀ l, level g src = Ok l → level g mid = Ok l → level g dest = Ok l).
Proof.
  intros Hn Hg.
  destruct (triangle_graph_facts n g Hn Hg) as (Hnodes & Hclosed & _ & _).
  split.
  - intros Hlen. apply get_valid_moves_total; [done | lia].
  - intros moves src mid dest Hmoves Hm.
    pose proof (get_valid_moves_generated g bs moves Hmoves _ Hm) as Hgen.
    destruct (generated_cells g bs src mid dest Hclosed Hgen)
      as (_ & Hs & Hmid & Hd).
    do 3 (split; [done | ]).
    destruct Hgen as (_ & _ & _ & _ & _ & sn & mn & sl & ml & Hsn & _ & Hmn
                      & Hsl & Hml & _ & Hin & Hnin & Hlvl).
    split; [by exists mn | ]. split; [by exists sn | ].
    intros l El Em. rewrite Hsl in El. rewrite Hml in Em.
    injection El as <-. injection Em as Heq. rewrite <- Heq.
    apply Hlvl. congruence.
Qed.

Lemma generated_moves_checked_witness :
  (Z.of_nat (length corner_empty) = triangular_number 4 →
   ∃ moves, get_valid_moves triangle4 corner_empty = Ok moves) ∧
  ∀ moves src mid dest,
    get_valid_moves triangle4 corner_empty = Ok moves →
    (src, mid, dest) ∈ moves →
    corner_empty !! Z.to_nat src = Some true ∧
    corner_empty !! Z.to_nat mid = Some true ∧
    corner_empty !! Z.to_nat dest = Some false ∧
    (∃ mid_nbrs, neighbors triangle4 mid = Ok mid_nbrs ∧ dest ∈ mid_nbrs) ∧
    (∃ src_nbrs, neighbors triangle4 src = Ok src_nbrs ∧ dest ∉ src_nbrs) ∧
    (∀ l, level triangle4 src = Ok l → level triangle4 mid = Ok l →
          level triangle4 dest = Ok l).
Proof.
  apply (generated_moves_checked 4 triangle4 corner_empty);
    [lia | exact triangle4_built].
Defined.

(** C6: on the graph built for [n] in {4,5,6}, for every board and every move
    returned by the move generator for it, the loop body of [solve] makes
    the move on a copy of the board ([src] and [mid] set to empty, [dest]
    to a peg) without raising; the copy then holds exactly one peg fewer
    than the board, which itself is left as it was.  The copy is the
    board [apply_move] describes. *)
Theorem move_removes_one_peg (n : Z) (g : Graph) (w : World) (bs : loc)
    (b : list bool) (moves : list move) (m : move) :
  4 <= n <= 6 →
  generate_triangle_graph n = Ok g →
  load w bs = Ok b →
  get_valid_moves g b = Ok moves →
  m ∈ moves →
  ∃ new_bs bs_hash w1 b',
    make_move w bs m = Ok (new_bs, bs_hash, w1) ∧
    load w1 new_bs = Ok b' ∧
    count_pegs b' = count_pegs b - 1 ∧
    load w1 bs = Ok b ∧
    apply_move b m = Ok b'.
Proof.
  intros Hn Hg Hb Hmoves Hm.
  destruct (triangle_graph_facts n g Hn Hg) as (_ & Hclosed & _ & _).
  pose proof (get_valid_moves_generated g b moves Hmoves m Hm) as Hgen.
  destruct (generated_apply g b m Hgen) as [b' Happ].
  rewrite (make_move_eq w bs b m Hb), Happ. simpl.
  eexists _, _, _, b'. split; [done | ].
  split; [apply load_Ok; simpl; apply store_lookup_new | ].
  split; [by eapply generated_count | ].
  split; [ | done ].
  apply load_Ok. simpl. apply lookup_app_l_Some. by apply load_Ok.
Qed.

Lemma move_removes_one_peg_witness :
  ∃ new_bs bs_hash w1 b',
    make_move (fresh corner_empty) 0%nat (3, 1, 0) = Ok (new_bs, bs_hash, w1) ∧
    load w1 new_bs = Ok b' ∧
    count_pegs b' = count_pegs corner_empty - 1 ∧
    load w1 0%nat = Ok corner_empty ∧
    apply_move corner_empty (3, 1, 0) = Ok b'.
Proof.
  apply (move_removes_one_peg 4 triangle4 (fresh corner_empty) 0%nat
           corner_empty [(3, 1, 0); (5, 2, 0)] (3, 1, 0));
    [lia | exact triangle4_built | reflexivity | vm_compute; reflexivity
    | left].
Defined.

(** C8: for every graph and every board with exactly one peg, [solve]
    returns [True] at once: the state is the one it was called in, so no
    move was tried or appended, and a path that was empty at the call is
    empty at the return. *)
Theorem solve_one_peg (fuel : nat) (g : Graph) (bs : loc) (b : list bool)
    (w : World) :
  load w bs = Ok b →
  count_pegs b = 1 →
  solve (S fuel) g bs w = Some (Ok (true, w)) ∧
  (FINAL_MOVE_LIST w = [] →
   ∃ w', solve (S fuel) g bs w = Some (Ok (true, w')) ∧
         FINAL_MOVE_LIST w' = []).
Proof.
  intros Hb Hone.
  assert (H : solve (S fuel) g bs w = Some (Ok (true, w))).
  { simpl. rewrite Hb. by rewrite bool_decide_true. }
  split; [done | ]. intros Hp. by exists w.
Qed.

Lemma solve_one_peg_witness :
  solve 1 triangle4 0%nat (fresh one_peg) = Some (Ok (true, fresh one_peg)) ∧
  (FINAL_MOVE_LIST (fresh one_peg) = [] →
   ∃ w', solve 1 triangle4 0%nat (fresh one_peg) = Some (Ok (true, w')) ∧
         FINAL_MOVE_LIST w' = []).
Proof.
  apply (solve_one_peg 0 triangle4 0%nat one_peg (fresh one_peg));
    reflexivity.
Defined.

(** C9: for every graph and board, if [solve] returns [False] then
    [FINAL_MOVE_LIST] is what it was at the call: every move appended
    during the failed search has been popped. *)
Theorem failure_restores_path (fuel : nat) (g : Graph) (bs : loc)
    (w w' : World) :
  solve fuel g bs w = Some (Ok (false, w')) →
  FINAL_MOVE_LIST w' = FINAL_MOVE_LIST w.
Proof.
  intros Hrun. destruct (solve_returns_load _ _ _ _ _ _ Hrun) as [b Hb].
  by destruct (solve_sound _ _ _ _ _ _ _ Hb Hrun) as [_ [Hp _]].
Qed.

Lemma failure_restores_path_witness :
  ∃ w', solve 3 triangle4 0%nat (fresh three_pegs) = Some (Ok (false, w')) ∧
        N_MOVES w' = 1 ∧
        FINAL_MOVE_LIST w' = FINAL_MOVE_LIST (fresh three_pegs).
Proof.
  eexists. split; [vm_compute; reflexivity | ]. split; [reflexivity | ].
  apply (failure_restores_path 3 triangle4 0%nat (fresh three_pegs)).
  vm_compute. reflexivity.
Defined.

(** C10: for every graph and board, [solve] does not change the list it is
    given, nor any other list that existed at the call: after it returns,
    with either result, each of them holds the values it held before. *)
Theorem solve_keeps_boards (fuel : nat) (g : Graph) (bs : loc) (b : list bool)
    (w : World) (r : bool) (w' : World) :
  load w bs = Ok b →
  solve fuel g bs w = Some (Ok (r, w')) →
  load w' bs = Ok b ∧ ∀ l b0, load w l = Ok b0 → load w' l = Ok b0.
Proof.
  intros Hb Hrun. destruct (solve_sound _ _ _ _ _ _ _ Hb Hrun) as [Hg _].
  split; [by eapply grows_load | ]. intros l b0. by apply grows_load.
Qed.

Lemma solve_keeps_boards_witness :
  ∃ w', solve 3 triangle4 0%nat (fresh two_pegs) = Some (Ok (true, w')) ∧
        load w' 0%nat = Ok two_pegs ∧
        ∀ l b0, load (fresh two_pegs) l = Ok b0 → load w' l = Ok b0.
Proof.
  eexists. split; [vm_compute; reflexivity | ].
  apply (solve_keeps_boards 3 triangle4 0%nat two_pegs (fresh two_pegs) true);
    [reflexivity | vm_compute; reflexivity].
Defined.

(** C3: for [n] in {4,5,6} and a board of [T(n)] holes, if [solve] on the
    graph built for [n] returns [True], then the moves it appended to
    [FINAL_MOVE_LIST] (the whole list when the path was empty at the call),
    replayed in order from the board it was called on, are each a legal
    move of the board they are applied to (pegs at source and jumped hole,
    destination empty, three consecutive holes of one line of the
    triangle) and leave a board with exactly one peg. *)
Theorem solution_replays (n : Z) (g : Graph) (fuel : nat) (bs : loc)
    (b : list bool) (w w' : World) :
  4 <= n <= 6 →
  generate_triangle_graph n = Ok g →
  Z.of_nat (length b) = triangular_number n →
  load w bs = Ok b →
  solve fuel g bs w = Some (Ok (true, w')) →
  ∃ path final,
    FINAL_MOVE_LIST w' = FINAL_MOVE_LIST w ++ path ∧
    plays (legal_move n) b path final ∧
    count_pegs final = 1.
Proof.
  intros Hn Hg _ Hb Hrun.
  destruct (triangle_graph_facts n g Hn Hg) as (_ & Hclosed & Hgeo & _).
  destruct (solve_sound _ _ _ _ _ _ _ Hb Hrun)
    as [_ (path & final & Hp & Hpl & Hc)].
  exists path, final. split; [done | ]. split; [ | done ].
  revert Hpl. apply plays_impl. intros b0 m. by apply generated_legal.
Qed.

Lemma solution_replays_witness :
  ∃ w' path final,
    solve 2 triangle4 0%nat (fresh two_pegs) = Some (Ok (true, w')) ∧
    FINAL_MOVE_LIST w' = FINAL_MOVE_LIST (fresh two_pegs) ++ path ∧
    plays (legal_move 4) two_pegs path final ∧
    count_pegs final = 1.
Proof.
  eexists.
  assert (H : solve 2 triangle4 0%nat (fresh two_pegs) = Some (Ok (true, _)))
    by (vm_compute; reflexivity).
  destruct (solution_replays 4 triangle4 2 0%nat two_pegs (fresh two_pegs) _
              ltac:(lia) triangle4_built eq_refl eq_refl H)
    as (path & final & Hp).
  exists path, final. split; [exact H | exact Hp].
Defined.

(** C7: on the graph built for [n] in {4,5,6} and a board of [T(n)] holes,
    [solve] returns: every recursive call is made on a copy of the board
    that has exactly one peg fewer, so with [k] pegs at most [k - 1] calls
    are ever nested below the first one (none when [k] is 0 or 1), and
    that is at most [T(n) - 1].  In the model, fuel [d + 1] allows calls
    nested [d] deep. *)
Theorem solve_terminates (n : Z) (g : Graph) (fuel : nat) (bs : loc)
    (b : list bool) (w : World) :
  4 <= n <= 6 →
  generate_triangle_graph n = Ok g →
  Z.of_nat (length b) = triangular_number n →
  load w bs = Ok b →
  (Z.to_nat (count_pegs b - 1) < fuel)%nat →
  (∃ r w', solve fuel g bs w = Some (Ok (r, w'))) ∧
  count_pegs b - 1 <= triangular_number n - 1 ∧
  ∀ moves m new_bs h w1,
    get_valid_moves g b = Ok moves → m ∈ moves →
    make_move w bs m = Ok (new_bs, h, w1) →
    ∃ b', load w1 new_bs = Ok b' ∧ count_pegs b' = count_pegs b - 1.
Proof.
  intros Hn Hg Hlen Hb Hfuel.
  destruct (triangle_graph_facts n g Hn Hg) as (Hnodes & Hclosed & _ & _).
  pose proof (count_pegs_bounds b) as Hc.
  split; [ | split; [lia | ] ].
  - apply (solve_total g Hclosed fuel bs w b Hb); lia.
  - intros moves m new_bs h w1 Hmoves Hm Hmake.
    rewrite (make_move_eq w bs b m Hb) in Hmake.
    destruct (apply_move b m) as [b'|e] eqn:Happ; [ | done ].
    simpl in Hmake. injection Hmake as <- <- <-.
    exists b'. split; [apply load_Ok; simpl; apply store_lookup_new | ].
    eapply generated_count; [done | | done].
    by eapply get_valid_moves_generated.
Qed.

Lemma solve_terminates_witness :
  (∃ r w', solve 9 triangle4 0%nat (fresh corner_empty) = Some (Ok (r, w'))) ∧
  count_pegs corner_empty - 1 <= triangular_number 4 - 1 ∧
  ∀ moves m new_bs h w1,
    get_valid_moves triangle4 corner_empty = Ok moves → m ∈ moves →
    make_move (fresh corner_empty) 0%nat m = Ok (new_bs, h, w1) →
    ∃ b', load w1 new_bs = Ok b' ∧
          count_pegs b' = count_pegs corner_empty - 1.
Proof.
  apply (solve_terminates 4 triangle4 9 0%nat corner_empty (fresh corner_empty));
    [lia | exact triangle4_built | reflexivity | reflexivity | ].
  vm_compute. lia.
Defined.

(** C1 (as stated, refuted): [SEEN] is created once, in [main], and handed
    from one invocation of [solve] to the next.  On four rows the first
    invocation of the run (hole 0 empty) fails and adds the encoding
    [1010111111] of the board after its first jump; the second invocation
    (hole 1 empty) starts in the state the first one left, with that
    encoding in [SEEN]. *)
Lemma seen_survives_invocation :
  ∃ w1 w2,
    generate_triangle_graph 4 = Ok triangle4 ∧
    SEEN initial_world = ∅ ∧
    try_start 9 triangle4 initial_world 0 = Some (Ok (false, w1)) ∧
    "1010111111"%string ∈ SEEN_adds w1 ∧
    "1010111111"%string ∈ SEEN w1 ∧
    try_start 9 triangle4 w1 1 = Some (Ok (true, w2)).
Proof.
  eexists. eexists. split; [exact triangle4_built | ].
  split; [reflexivity | ].
  split; [vm_compute; reflexivity | ].
  split; [apply (bool_decide_unpack _); vm_compute; exact I | ].
  split; [apply (bool_decide_unpack _); vm_compute; exact I | ].
  vm_compute. reflexivity.
Qed.

(** C1 (amended): [SEEN] is one set for the whole run.  Of two successive
    invocations of [solve], the second starts with [SEEN] as the first left
    it, which holds everything the first started with and everything it
    added; each invocation adds an encoding only if [SEEN] does not hold
    it, so over both invocations every encoding is added at most once. *)
Theorem seen_shared_across_invocations (fuel1 fuel2 : nat) (g : Graph)
    (bs1 bs2 : loc) (w w1 w2 : World) (r1 r2 : bool) :
  solve fuel1 g bs1 w = Some (Ok (r1, w1)) →
  solve fuel2 g bs2 w1 = Some (Ok (r2, w2)) →
  ∃ adds1 adds2,
    SEEN_adds w1 = SEEN_adds w ++ adds1 ∧
    SEEN_adds w2 = SEEN_adds w1 ++ adds2 ∧
    SEEN w1 = list_to_set adds1 ∪ SEEN w ∧
    SEEN w2 = list_to_set adds2 ∪ SEEN w1 ∧
    NoDup (adds1 ++ adds2) ∧
    ∀ h, h ∈ adds1 ++ adds2 → h ∉ SEEN w.
Proof.
  intros H1 H2.
  destruct (solve_returns_load _ _ _ _ _ _ H1) as [b1 Hb1].
  destruct (solve_returns_load _ _ _ _ _ _ H2) as [b2 Hb2].
  destruct (solve_sound _ _ _ _ _ _ _ Hb1 H1)
    as [(_ & a1 & Ha1 & Hs1 & Hd1 & Hf1) _].
  destruct (solve_sound _ _ _ _ _ _ _ Hb2 H2)
    as [(_ & a2 & Ha2 & Hs2 & Hd2 & Hf2) _].
  exists a1, a2. do 4 (split; [done | ]). split.
  - apply NoDup_app. split; [done | ]. split; [ | done ].
    intros h Hh1 Hh2. apply (Hf2 h Hh2). rewrite Hs1. set_solver.
  - intros h [Hh|Hh]%elem_of_app; [by apply Hf1 | ].
    intros Hin. apply (Hf2 h Hh). rewrite Hs1. set_solver.
Qed.

Lemma seen_shared_across_invocations_witness :
  ∃ adds1 adds2,
    SEEN_adds stuck_once = SEEN_adds (fresh three_pegs) ++ adds1 ∧
    SEEN_adds stuck_twice = SEEN_adds stuck_once ++ adds2 ∧
    SEEN stuck_once = list_to_set adds1 ∪ SEEN (fresh three_pegs) ∧
    SEEN stuck_twice = list_to_set adds2 ∪ SEEN stuck_once ∧
    NoDup (adds1 ++ adds2) ∧
    ∀ h, h ∈ adds1 ++ adds2 → h ∉ SEEN (fresh three_pegs).
Proof.
  apply (seen_shared_across_invocations 3 3 triangle4 0%nat 0%nat
           (fresh three_pegs) stuck_once stuck_twice false false);
    vm_compute; reflexivity.
Defined.

(** C2 (as stated, refuted): on four rows with pegs in holes 0 and 1, a
    first call of [solve] returns [True] with the path [(0, 1, 3)]; the
    board is untouched, and a second call on it, made in the state the
    first one left, finds the only successor in [SEEN] and returns
    [False]. *)
Lemma second_solve_differs :
  ∃ w1 w2,
    generate_triangle_graph 4 = Ok triangle4 ∧
    solve 5 triangle4 0%nat (fresh two_pegs) = Some (Ok (true, w1)) ∧
    FINAL_MOVE_LIST w1 = [(0, 1, 3)] ∧
    load w1 0%nat = Ok two_pegs ∧
    solve 5 triangle4 0%nat w1 = Some (Ok (false, w2)).
Proof.
  eexists. eexists. split; [exact triangle4_built | ].
  split; [vm_compute; reflexivity | ].
  split; [reflexivity | ]. split; [reflexivity | ].
  vm_compute. reflexivity.
Qed.

(** C2 (amended): [solve] is a function of the graph, the board and the
    globals, and the globals are not reset between calls.  When a first
    call leaves [FINAL_MOVE_LIST] as it found it (it returned [False], or
    [True] on a board of one peg), a second call on the same graph and
    board returns the same result and leaves the same path. *)
Theorem solve_again_when_path_kept (fuel fuel2 : nat) (g : Graph) (bs : loc)
    (w w1 : World) (r : bool) :
  solve fuel g bs w = Some (Ok (r, w1)) →
  FINAL_MOVE_LIST w1 = FINAL_MOVE_LIST w →
  ∃ w2, solve (S fuel2) g bs w1 = Some (Ok (r, w2)) ∧
        FINAL_MOVE_LIST w2 = FINAL_MOVE_LIST w1.
Proof.
  intros Hrun Hkept.
  destruct (solve_returns_load _ _ _ _ _ _ Hrun) as [b Hb].
  destruct (solve_sound _ _ _ _ _ _ _ Hb Hrun) as [Hg Hr].
  pose proof (grows_load _ _ _ _ Hg Hb) as Hb1.
  destruct r.
  - destruct Hr as (path & final & Hp & Hpl & Hc).
    rewrite Hkept in Hp. rewrite <- (app_nil_r (FINAL_MOVE_LIST w)) in Hp at 1.
    apply app_inv_head in Hp. subst path. inversion Hpl; subst.
    exists w1. split; [ | done ]. simpl. rewrite Hb1.
    by rewrite bool_decide_true.
  - destruct Hr as [_ Hch]. destruct fuel as [|fuel]; [done | ].
    simpl in Hrun. rewrite Hb in Hrun. simpl. rewrite Hb1.
    case_bool_decide; [done | ].
    destruct (get_valid_moves g b) as [moves|e] eqn:Hmoves; [ | done ].
    case_bool_decide; [by exists w1 | ].
    destruct (search_again g (solve fuel2 g) bs b moves w1)
      as (w2 & Hrun2 & Hp2 & _); [done | | | by exists w2 ].
    + by apply get_valid_moves_generated.
    + intros m b'. by apply Hch.
Qed.

Lemma solve_again_when_path_kept_witness :
  ∃ w2, solve 3 triangle4 0%nat stuck_once = Some (Ok (false, w2)) ∧
        FINAL_MOVE_LIST w2 = FINAL_MOVE_LIST stuck_once.
Proof.
  apply (solve_again_when_path_kept 3 2 triangle4 0%nat
           (fresh three_pegs) stuck_once false);
    vm_compute; reflexivity.
Defined.

(** * Further properties of the code *)

(** ** [triangular_number] *)

Lemma triangular_number_double (n : Z) :
  2 * triangular_number n = n * (n + 1).
Proof.
  unfold triangular_number.
  assert (He : (n * (n + 1)) `mod` 2 = 0).
  { rewrite Z.mul_mod by lia.
    destruct (Z.mod_pos_bound n 2 ltac:(lia)) as [? ?].
    assert (n `mod` 2 = 0 ∨ n `mod` 2 = 1) as [E|E] by lia.
    - by rewrite E.
    - replace ((n + 1) `mod` 2) with 0; [by rewrite Z.mul_0_r | ].
      rewrite Z.add_mod by lia. by rewrite E. }
  pose proof (Z.div_mod (n * (n + 1)) 2 ltac:(lia)) as H1.
  rewrite He in H1. lia.
Qed.

(** X1: the floor division in [triangular_number] is exact for every
    integer, negative ones included, and each row adds its length:
    [T(n+1) = T(n) + n + 1]. *)
Theorem triangular_number_exact (n : Z) :
  2 * triangular_number n = n * (n + 1) ∧
  triangular_number (n + 1) = triangular_number n + n + 1 ∧
  0 <= triangular_number n.
Proof.
  pose proof (triangular_number_double n).
  pose proof (triangular_number_double (n + 1)). nia.
Qed.

(** ** The board encoding *)

(** X2: the encoding used as key of [SEEN] tells boards apart: two boards
    have the same encoding exactly when they are the same list, and the
    encoding has one character per hole. *)
Theorem board_hash_inj (b1 b2 : list bool) :
  (board_hash b1 = board_hash b2 ↔ b1 = b2) ∧
  String.length (board_hash b1) = length b1.
Proof.
  split.
  - split; [ | by intros -> ].
    revert b2. induction b1 as [|x b1 IH]; intros [|y b2] H; simpl in H;
      try done.
    injection H as Hc Ht. apply IH in Ht as ->.
    by destruct x, y.
  - induction b1 as [|x b1 IH]; simpl; [done | by rewrite IH].
Qed.

(** ** The move generator emits every move that passes its checks *)

Lemma for_each_keeps {A M : Type} (body : list M -> A -> res (list M))
    (xs : list A) (acc r : list M) (m : M) :
  (∀ acc y acc', body acc y = Ok acc' → ∀ m, m ∈ acc → m ∈ acc') →
  for_each body xs acc = Ok r → m ∈ acc → m ∈ r.
Proof.
  intros Hkeep. revert acc. induction xs as [|x xs IH]; intros acc Hrun Hm.
  - simpl in Hrun. by injection Hrun as <-.
  - simpl in Hrun. inv_bind Hrun. apply (IH a); [done | ].
    by eapply Hkeep.
Qed.

Lemma for_each_emits {A M : Type} (body : list M -> A -> res (list M))
    (xs : list A) (acc r : list M) (x : A) (m : M) :
  (∀ acc y acc', body acc y = Ok acc' → ∀ m, m ∈ acc → m ∈ acc') →
  (∀ acc acc', body acc x = Ok acc' → m ∈ acc') →
  x ∈ xs → for_each body xs acc = Ok r → m ∈ r.
Proof.
  intros Hkeep Hx. revert acc.
  induction xs as [|y xs IH]; intros acc Hin Hrun;
    [by apply elem_of_nil in Hin | ].
  simpl in Hrun. inv_bind Hrun.
  apply elem_of_cons in Hin as [<-|Hin].
  - eapply for_each_keeps; [exact Hkeep | exact Hrun | by eapply Hx].
  - by apply (IH a).
Qed.

Lemma jump_over_keeps (g : Graph) (bs : list bool) (src : Z)
    (acc : list move) (mid : Z) (acc' : list move) :
  jump_over g bs src acc mid = Ok acc' → ∀ m, m ∈ acc → m ∈ acc'.
Proof.
  unfold jump_over. intros H. inv_bind H. injection H as <-.
  intros m Hm. destruct a; [ | done ]. apply elem_of_app. by left.
Qed.

Lemma moves_from_keeps (g : Graph) (bs : list bool) (acc : list move)
    (src : Z) (acc' : list move) :
  moves_from g bs acc src = Ok acc' → ∀ m, m ∈ acc → m ∈ acc'.
Proof.
  unfold moves_from. intros H. inv_bind H.
  destruct a; [ | by injection H as <- ].
  inv_bind H. intros m Hm.
  eapply for_each_keeps; [ | exact H | exact Hm ].
  intros acc0 y acc1. apply jump_over_keeps.
Qed.

Lemma generated_jump (g : Graph) (bs : list bool) (src mid dest : Z) :
  generated g bs (src, mid, dest) →
  jump g bs src mid = Ok (Some (src, mid, dest)).
Proof.
  intros (_ & _ & Hm & Hd & Hne & sn & mn & sl & ml & Hsn & _ & Hmn
          & Hsl & Hml & Hdest & Hin & Hnin & Hlvl).
  unfold jump. rewrite bool_decide_false by done.
  rewrite Hm. simpl. rewrite Hsl, Hml. simpl. rewrite Hmn. simpl.
  rewrite <- Hdest. rewrite (bool_decide_true (dest ∈ mn)) by done. simpl.
  rewrite Hsn. simpl. rewrite (bool_decide_false (dest ∈ sn)) by done.
  destruct (decide (sl = ml)) as [Heq|Hneq].
  - rewrite (bool_decide_true (sl = ml)) by done. rewrite (Hlvl Heq). simpl.
    rewrite bool_decide_false by naive_solver. by rewrite Hd.
  - rewrite (bool_decide_false (sl = ml)) by done. simpl. by rewrite Hd.
Qed.

Lemma generated_emitted (g : Graph) (bs : list bool) (moves : list move)
    (m : move) :
  get_valid_moves g bs = Ok moves → generated g bs m → m ∈ moves.
Proof.
  destruct m as [[src mid] dest]. intros Hrun Hgen.
  pose proof (generated_jump g bs src mid dest Hgen) as Hjump.
  destruct Hgen as (Hsrc & Hs & _ & _ & _ & sn & mn & sl & ml & Hsn & Hmid & _).
  unfold get_valid_moves in Hrun.
  eapply (for_each_emits _ _ _ _ src); [ | | by apply elem_of_range | exact Hrun ].
  - intros acc y acc'. apply moves_from_keeps.
  - intros acc acc' H. unfold moves_from in H. rewrite Hs in H. simpl in H.
    rewrite Hsn in H. simpl in H.
    eapply (for_each_emits _ _ _ _ mid); [ | | exact Hmid | exact H ].
    + intros acc0 y acc1. apply jump_over_keeps.
    + intros acc0 acc1 Hj. unfold jump_over in Hj. rewrite Hjump in Hj.
      simpl in Hj. injection Hj as <-. apply elem_of_app. right. left.
Qed.

(** ** The built graphs are the triangular lattice *)

Lemma triangle_lattice_checks_456 (n : Z) :
  4 <= n <= 6 → triangle_lattice_checks n = true.
Proof.
  intros Hn.
  assert (n = 4 ∨ n = 5 ∨ n = 6) as [-> | [-> | ->]] by lia;
    vm_compute; reflexivity.
Qed.

Lemma triangle_lattice_facts (n : Z) (g : Graph) :
  4 <= n <= 6 → generate_triangle_graph n = Ok g →
  lattice_jumps_generated n g = true ∧ lattice_graph g = true.
Proof.
  intros Hn%triangle_lattice_checks_456 Hg.
  unfold triangle_lattice_checks in Hn. rewrite Hg in Hn.
  by apply andb_prop in Hn.
Qed.

Lemma forallb_range (f : Z -> bool) (n x : Z) :
  forallb f (range n) = true → 0 <= x < n → f x = true.
Proof.
  rewrite forallb_forall. intros H Hx. apply H, list_elem_of_In.
  by apply elem_of_range.
Qed.

Lemma collinear_on_board (n src mid dest : Z) :
  collinear n src mid dest = true →
  0 <= src < triangular_number n ∧ 0 <= mid < triangular_number n ∧
  0 <= dest < triangular_number n.
Proof.
  unfold collinear, on_board. intros H.
  repeat (apply andb_prop in H as [H ?]). lia.
Qed.

Lemma legal_generated (n : Z) (g : Graph) (bs : list bool) (m : move) :
  number_of_nodes g = triangular_number n →
  lattice_jumps_generated n g = true →
  legal_move n bs m → generated g bs m.
Proof.
  destruct m as [[src mid] dest]. intros HN Hcheck (Hs & Hm & Hd & Hcol).
  destruct (collinear_on_board _ _ _ _ Hcol) as (Hsrc & Hmid & Hdest).
  rewrite <- HN in Hsrc, Hmid, Hdest.
  unfold lattice_jumps_generated in Hcheck.
  apply (forallb_range _ _ src) in Hcheck; [ | done ]. cbv beta in Hcheck.
  apply (forallb_range _ _ mid) in Hcheck; [ | done ]. cbv beta in Hcheck.
  apply (forallb_range _ _ dest) in Hcheck; [ | done ]. cbv beta in Hcheck.
  rewrite Hcol in Hcheck. simpl in Hcheck. unfold static_jump in Hcheck.
  destruct (neighbors g src) as [sn|] eqn:Hsn; [ | done ].
  destruct (neighbors g mid) as [mn|] eqn:Hmn; [ | done ].
  destruct (level g src) as [sl|] eqn:Hsl; [ | done ].
  destruct (level g mid) as [ml|] eqn:Hml; [ | done ].
  repeat (apply andb_prop in Hcheck as [Hcheck ?]).
  repeat match goal with
         | H : bool_decide _ = true |- _ => apply bool_decide_eq_true in H
         | H : negb (bool_decide _) = true |- _ =>
             apply negb_true_iff, bool_decide_eq_false in H
         end.
  assert (Hget : ∀ p x, 0 <= p → bs !! Z.to_nat p = Some x → py_get bs p = Ok x).
  { intros p x Hp Hx. apply py_get_Ok. exists (Z.to_nat p). split; [ | done ].
    apply py_index_in_range. apply lookup_lt_Some in Hx. lia. }
  unfold generated. split; [done | ].
  do 3 (split; [apply Hget; [lia | done] | ]). split; [done | ].
  exists sn; exists mn; exists sl; exists ml.
  do 8 (split; [done | ]).
  intros Heq. match goal with H : _ || _ = true |- _ =>
    apply orb_prop in H as [H|H] end.
  - by apply bool_decide_eq_true in H.
  - destruct (level g dest); [ | done ].
    apply bool_decide_eq_true in H. by subst.
Qed.

(** X3: on the graph built for [n] in {4,5,6}, the list the move generator
    returns for a board holds exactly the legal jumps of the game on that
    board: [src] and [mid] hold pegs, [dest] is empty, and the three are
    consecutive holes of one line of the triangle. *)
Theorem moves_are_the_legal_jumps (n : Z) (g : Graph) (bs : list bool)
    (moves : list move) (m : move) :
  4 <= n <= 6 →
  generate_triangle_graph n = Ok g →
  get_valid_moves g bs = Ok moves →
  m ∈ moves ↔ legal_move n bs m.
Proof.
  intros Hn Hg Hmoves.
  destruct (triangle_graph_facts n g Hn Hg) as (HN & Hclosed & Hgeo & _).
  destruct (triangle_lattice_facts n g Hn Hg) as (Hjumps & _).
  split.
  - intros Hm. eapply generated_legal; [done.. | ].
    by eapply get_valid_moves_generated.
  - intros Hm. eapply generated_emitted; [done | ].
    by eapply legal_generated.
Qed.

Lemma moves_are_the_legal_jumps_witness :
  (3, 1, 0) ∈ [(3, 1, 0); (5, 2, 0)] ↔ legal_move 4 corner_empty (3, 1, 0).
Proof.
  apply (moves_are_the_legal_jumps 4 triangle4 corner_empty);
    [lia | exact triangle4_built | vm_compute; reflexivity].
Defined.

(** X4: on the graph built for [n] in {4,5,6}, the level stored at a hole is
    its row in the row-major numbering, and its neighbours are exactly the
    holes of the board that touch it on the triangular lattice (left,
    right, the two above and the two below). *)
Theorem triangle_graph_is_lattice (n : Z) (g : Graph) (u : Z) :
  4 <= n <= 6 →
  generate_triangle_graph n = Ok g →
  0 <= u < triangular_number n →
  level g u = Ok (row_of u) ∧
  ∃ ns, neighbors g u = Ok ns ∧
        ∀ v, v ∈ ns ↔ 0 <= v < triangular_number n ∧ adjacent u v = true.
Proof.
  intros Hn Hg Hu.
  destruct (triangle_graph_facts n g Hn Hg) as (HN & _).
  destruct (triangle_lattice_facts n g Hn Hg) as (_ & Hlat).
  rewrite <- HN in *. unfold lattice_graph in Hlat.
  apply (forallb_range _ _ u) in Hlat; [ | done ]. cbv beta in Hlat.
  destruct (level g u) as [l|]; [ | done ].
  destruct (neighbors g u) as [ns|]; [ | done ].
  apply andb_prop in Hlat as [Hlat Hall]. apply andb_prop in Hlat as [Hl Hns].
  apply Z.eqb_eq in Hl as ->. split; [done | ]. exists ns. split; [done | ].
  intros v. split.
  - intros Hv. rewrite forallb_forall in Hns.
    apply list_elem_of_In, Hns in Hv.
    apply andb_prop in Hv as [Hv ?]. apply andb_prop in Hv as [? ?].
    split; [lia | done].
  - intros [Hv Hadj]. apply (forallb_range _ _ v) in Hall; [ | done ].
    cbv beta in Hall. rewrite Hadj in Hall. simpl in Hall.
    by apply bool_decide_eq_true in Hall.
Qed.

Lemma triangle_graph_is_lattice_witness :
  level triangle4 4 = Ok (row_of 4) ∧
  ∃ ns, neighbors triangle4 4 = Ok ns ∧
        ∀ v, v ∈ ns ↔ 0 <= v < triangular_number 4 ∧ adjacent 4 v = true.
Proof.
  apply (triangle_graph_is_lattice 4 triangle4 4);
    [lia | exact triangle4_built | vm_compute; split; [discriminate | reflexivity] ].
Defined.

(** ** Solutions have one move per peg but the last *)

Lemma plays_count (g : Graph) (b : list bool) (path : list move)
    (final : list bool) :
  closed_graph g = true →
  plays (generated g) b path final →
  count_pegs final = count_pegs b - Z.of_nat (length path).
Proof.
  intros Hg. induction 1 as [b|b m b' path final Hm Happ _ IH].
  - simpl. lia.
  - rewrite IH, (generated_count g b b' m Hg Hm Happ). simpl length. lia.
Qed.

(** X5: on the graph built for [n] in {4,5,6}, a successful call of [solve]
    on a board of [k] pegs appends exactly [k - 1] moves to
    [FINAL_MOVE_LIST]. *)
Theorem solution_length (n : Z) (g : Graph) (fuel : nat) (bs : loc)
    (b : list bool) (w w' : World) :
  4 <= n <= 6 →
  generate_triangle_graph n = Ok g →
  load w bs = Ok b →
  solve fuel g bs w = Some (Ok (true, w')) →
  Z.of_nat (length (FINAL_MOVE_LIST w'))
  = Z.of_nat (length (FINAL_MOVE_LIST w)) + count_pegs b - 1.
Proof.
  intros Hn Hg Hb Hrun.
  destruct (triangle_graph_facts n g Hn Hg) as (_ & Hclosed & _ & _).
  destruct (solve_sound _ _ _ _ _ _ _ Hb Hrun)
    as [_ (path & final & Hp & Hpl & Hc)].
  pose proof (plays_count g b path final Hclosed Hpl) as Hlen.
  rewrite Hp, length_app. lia.
Qed.

Lemma solution_length_witness :
  Z.of_nat (length (FINAL_MOVE_LIST
                      (state_after (solve 2 triangle4 0%nat (fresh two_pegs)))))
  = Z.of_nat (length (FINAL_MOVE_LIST (fresh two_pegs)))
    + count_pegs two_pegs - 1.
Proof.
  apply (solution_length 4 triangle4 2 0%nat two_pegs (fresh two_pegs));
    [lia | exact triangle4_built | reflexivity | vm_compute; reflexivity].
Defined.

(** ** Boards without a hole or without a peg *)

Lemma py_get_elem {A : Type} (l : list A) (i : Z) (a : A) :
  py_get l i = Ok a → a ∈ l.
Proof.
  intros (k & _ & Hk)%py_get_Ok. by eapply list_elem_of_lookup_2.
Qed.

(** X6: a jump needs a peg to move and a hole to land in.  For every graph,
    on a board whose holes are all filled, or all empty, the move generator
    returns no move (if it returns), and [solve] on such a board of other
    than one hole returns [False] at once, trying no move and leaving the
    globals and the store as they were. *)
Theorem no_move_without_peg_or_hole (fuel : nat) (g : Graph) (bs : loc)
    (b : list bool) (moves : list move) (w : World) (x : bool) :
  b = replicate (length b) x →
  get_valid_moves g b = Ok moves →
  moves = [] ∧
  (load w bs = Ok b → length b ≠ 1%nat →
   solve (S fuel) g bs w = Some (Ok (false, w))).
Proof.
  intros Hrep Hmoves.
  assert (Hall : ∀ y, y ∈ b → y = x).
  { intros y Hy. rewrite Hrep in Hy. by apply elem_of_replicate in Hy as [? _]. }
  clear Hrep.
  assert (Hnil : moves = []).
  { destruct moves as [|[[src mid] dest] rest]; [done | exfalso].
    pose proof (get_valid_moves_generated g b _ Hmoves (src, mid, dest)
                  ltac:(left)) as (_ & Hs & _ & Hd & _).
    apply py_get_elem, Hall in Hs. apply py_get_elem, Hall in Hd. congruence. }
  split; [done | ]. intros Hb Hlen. simpl. rewrite Hb.
  rewrite bool_decide_false.
  - rewrite Hmoves. subst moves. by rewrite bool_decide_true.
  - intros Hone. apply Hlen. clear -Hall Hone.
    destruct b as [|y [|z b]]; [done | done | exfalso].
    assert (y = x) as -> by (apply Hall; left).
    assert (z = x) as -> by (apply Hall; right; left).
    pose proof (count_pegs_bounds b). simpl in Hone.
    destruct x; [lia | ].
    assert (Hz : ∀ l : list bool, (∀ y, y ∈ l → y = false) → count_pegs l = 0).
    { induction l as [|a l IH]; [done | ]. intros Hl. simpl.
      rewrite (Hl a) by left. rewrite IH; [done | ].
      intros y Hy. apply Hl. by right. }
    rewrite Hz in Hone; [lia | ]. intros y Hy. apply Hall. by do 2 right.
Qed.

Lemma no_move_without_peg_or_hole_witness :
  ([] : list move) = [] ∧
  (load (fresh (full_board triangle4)) 0%nat = Ok (full_board triangle4) →
   length (full_board triangle4) ≠ 1%nat →
   solve 1 triangle4 0%nat (fresh (full_board triangle4))
   = Some (Ok (false, fresh (full_board triangle4)))).
Proof.
  apply (no_move_without_peg_or_hole 0 triangle4 0%nat
           (full_board triangle4) [] (fresh (full_board triangle4)) true);
    vm_compute; reflexivity.
Defined.

(** ** A failed search has tried everything *)

Lemma board_hash_eq (b1 b2 : list bool) :
  board_hash b1 = board_hash b2 → b1 = b2.
Proof.
  revert b2. induction b1 as [|x b1 IH]; intros [|y b2] H; simpl in H;
    try done.
  injection H as Hc Ht. apply IH in Ht as ->. by destruct x, y.
Qed.

Lemma unsolvable_step (g : Graph) (b : list bool) (moves : list move) :
  get_valid_moves g b = Ok moves →
  count_pegs b ≠ 1 →
  (∀ m c, m ∈ moves → apply_move b m = Ok c → ¬ solvable g c) →
  ¬ solvable g b.
Proof.
  intros Hmoves Hone Hch (path & final & Hpl & Hc).
  inversion Hpl as [|b0 m c rest final0 Hm Happ Hrest]; subst; [done | ].
  apply (Hch m c); [by eapply generated_emitted | done | ].
  by exists rest, final.
Qed.

Lemma search_exhausts (g : Graph) (rec : loc -> World -> outcome) (bs : loc)
    (b : list bool) :
  closed_graph g = true →
  (∀ new_bs w b' r w', load w new_bs = Ok b' →
     rec new_bs w = Some (Ok (r, w')) → solve_post g b' w r w') →
  (∀ new_bs w c w', load w new_bs = Ok c → barren g (count_pegs c) w →
     rec new_bs w = Some (Ok (false, w')) →
     ¬ solvable g c ∧
     ∀ b0, board_hash b0 ∈ SEEN w' → board_hash b0 ∈ SEEN w ∨ ¬ solvable g b0) →
  ∀ moves w w',
    load w bs = Ok b →
    barren g (count_pegs b) w →
    (∀ m, m ∈ moves → generated g b m) →
    search rec bs moves w = Some (Ok (false, w')) →
    (∀ m c, m ∈ moves → apply_move b m = Ok c → ¬ solvable g c) ∧
    ∀ b0, board_hash b0 ∈ SEEN w' → board_hash b0 ∈ SEEN w ∨ ¬ solvable g b0.
Proof.
  intros Hg Hpost Hrec.
  induction moves as [|m rest IH]; intros w w' Hb Hbar Hgen Hrun.
  - simpl in Hrun. injection Hrun as <-. split; [ | by left ].
    intros m c Hm. by apply elem_of_nil in Hm.
  - simpl in Hrun. rewrite (make_move_eq w bs b m Hb) in Hrun.
    assert (Hm : generated g b m) by (apply Hgen; left).
    destruct (apply_move b m) as [c|e] eqn:Happ; simpl in Hrun; [ | done ].
    pose proof (generated_count g b c m Hg Hm Happ) as Hcount.
    set (w1 := mkWorld _ _ _ _ _) in Hrun.
    assert (Hg1 : grows w w1) by (apply grows_same; [by apply prefix_app_r | done..]).
    assert (Hrest : ∀ m0, m0 ∈ rest → generated g b m0)
      by (intros m0 Hm0; apply Hgen; by right).
    case_bool_decide as Hseen.
    + destruct (IH w1 w') as [Hch Hnew]; [by eapply grows_load | done.. | ].
      split; [ | done ].
      intros m0 c0 [->|Hm0]%elem_of_cons Hc0; [ | by eapply Hch ].
      rewrite Happ in Hc0. injection Hc0 as <-.
      destruct (Hbar c Hseen) as [Hdead|Hk]; [done | lia].
    + set (w2 := enter w1 (board_hash c) m) in Hrun.
      assert (Hl : load w2 (length (store w)) = Ok c)
        by (apply load_Ok; simpl; apply store_lookup_new).
      destruct (rec (length (store w)) w2) as [[[[|] w3]|e]|] eqn:Hcall;
        try done.
      destruct (Hpost _ _ _ _ _ Hl Hcall) as [Hg3 [Hp _]].
      destruct (pop_move_last w3 (FINAL_MOVE_LIST w) m Hp)
        as (w4 & Hpop & _ & Hs4 & Hn4 & Ha4).
      rewrite Hpop in Hrun.
      assert (Hbar2 : barren g (count_pegs c) w2).
      { intros b0 Hb0. simpl in Hb0.
        apply elem_of_union in Hb0 as [->%elem_of_singleton%board_hash_eq|Hb0];
          [right; lia | ].
        destruct (Hbar b0 Hb0) as [?|?]; [by left | right; lia]. }
      destruct (Hrec _ _ _ _ Hl Hbar2 Hcall) as [Hdead Hnew3].
      assert (Hold : ∀ b0, board_hash b0 ∈ SEEN w4 →
                           board_hash b0 ∈ SEEN w ∨ ¬ solvable g b0).
      { intros b0 Hb0. rewrite Hn4 in Hb0.
        destruct (Hnew3 b0 Hb0) as [Hin|?]; [ | by right ].
        simpl in Hin.
        apply elem_of_union in Hin as [->%elem_of_singleton%board_hash_eq|Hin];
          [by right | by left]. }
      destruct (IH w4 w') as [Hch Hnew]; [ | | done | done | ].
      * eapply grows_load; [ | exact Hb ].
        eapply grows_trans; [exact Hg1 | ].
        eapply grows_trans; [by apply grows_enter | ].
        eapply grows_trans; [exact Hg3 | ].
        apply grows_same; [by rewrite Hs4 | done..].
      * intros b0 Hb0. destruct (Hold b0 Hb0) as [Hin|?]; [ | by left ].
        by apply Hbar.
      * split.
        -- intros m0 c0 [->|Hm0]%elem_of_cons Hc0; [ | by eapply Hch ].
           rewrite Happ in Hc0. by injection Hc0 as <-.
        -- intros b0 Hb0. destruct (Hnew b0 Hb0) as [Hin|?]; [ | by right ].
           by apply Hold.
Qed.

Lemma solve_exhausts (g : Graph) :
  closed_graph g = true →
  ∀ fuel bs w b w',
    load w bs = Ok b →
    barren g (count_pegs b) w →
    solve fuel g bs w = Some (Ok (false, w')) →
    ¬ solvable g b ∧
    ∀ b0, board_hash b0 ∈ SEEN w' → board_hash b0 ∈ SEEN w ∨ ¬ solvable g b0.
Proof.
  intros Hg. induction fuel as [|fuel IH]; intros bs w b w' Hb Hbar Hrun;
    [done | ].
  simpl in Hrun. rewrite Hb in Hrun.
  case_bool_decide as Hone; [done | ].
  destruct (get_valid_moves g b) as [moves|e] eqn:Hmoves; [ | done ].
  case_bool_decide as Hnil.
  - injection Hrun as <-. split; [ | by left ].
    eapply unsolvable_step; [done.. | ].
    intros m c Hm. destruct moves; [by apply elem_of_nil in Hm | done].
  - assert (Hpost : ∀ new_bs w0 b' r w0', load w0 new_bs = Ok b' →
              solve fuel g new_bs w0 = Some (Ok (r, w0')) →
              solve_post g b' w0 r w0')
      by (intros; by eapply solve_sound).
    destruct (search_exhausts g (solve fuel g) bs b Hg Hpost IH
                moves w w' Hb Hbar) as [Hch Hnew]; [ | done | ].
    + by apply get_valid_moves_generated.
    + split; [ | done ]. by eapply unsolvable_step.
Qed.

Lemma winnable_solvable (n : Z) (g : Graph) (b : list bool) :
  4 <= n <= 6 → generate_triangle_graph n = Ok g →
  winnable n b ↔ solvable g b.
Proof.
  intros Hn Hg.
  destruct (triangle_graph_facts n g Hn Hg) as (HN & Hclosed & Hgeo & _).
  destruct (triangle_lattice_facts n g Hn Hg) as (Hjumps & _).
  split; intros (path & final & Hpl & Hc); exists path, final;
    (split; [ | done ]); revert Hpl; apply plays_impl; intros b0 m.
  - by apply legal_generated.
  - by apply generated_legal.
Qed.

(** X7: on the graph built for [n] in {4,5,6}, a call of [solve] that starts
    with an empty [SEEN] and returns [False] has exhausted the game: no
    sequence of legal jumps brings its board down to a single peg. *)
Theorem failure_means_unwinnable (n : Z) (g : Graph) (fuel : nat) (bs : loc)
    (b : list bool) (w w' : World) :
  4 <= n <= 6 →
  generate_triangle_graph n = Ok g →
  load w bs = Ok b →
  SEEN w = ∅ →
  solve fuel g bs w = Some (Ok (false, w')) →
  ¬ winnable n b.
Proof.
  intros Hn Hg Hb Hseen Hrun.
  destruct (triangle_graph_facts n g Hn Hg) as (_ & Hclosed & _ & _).
  rewrite (winnable_solvable n g b Hn Hg).
  eapply (solve_exhausts g Hclosed); [exact Hb | | exact Hrun].
  intros b0 Hb0. rewrite Hseen in Hb0. set_solver.
Qed.

Lemma failure_means_unwinnable_witness : ¬ winnable 4 corner_empty.
Proof.
  apply (failure_means_unwinnable 4 triangle4 9 0%nat corner_empty
           (fresh corner_empty)
           (state_after (solve 9 triangle4 0%nat (fresh corner_empty))));
    [lia | exact triangle4_built | reflexivity | reflexivity
    | vm_compute; reflexivity].
Defined.

(** ** The driver *)

Lemma try_start_eq (fuel : nat) (g : Graph) (w : World) (c : Z) :
  try_start fuel g w c
  = match py_set (full_board g) c false with
    | Ok b => solve fuel g (length (store w)) (set_store w (store w ++ [b]))
    | Raise e => Some (Raise e)
    end.
Proof.
  unfold try_start. rewrite (setitem_new _ (store w) (full_board g)) by done.
  by destruct (py_set (full_board g) c false).
Qed.

Lemma try_all_sound (n : Z) (g : Graph) (fuel : nat) :
  4 <= n <= 6 → generate_triangle_graph n = Ok g →
  ∀ nodes w e w',
    FINAL_MOVE_LIST w = [] →
    (∀ b0, board_hash b0 ∈ SEEN w → ¬ solvable g b0) →
    try_all fuel g nodes w = Some (Ok (e, w')) →
    match e with
    | ExitUsage => False
    | ExitSolved moves =>
        ∃ c b final, c ∈ nodes ∧ py_set (full_board g) c false = Ok b ∧
                     plays (legal_move n) b moves final ∧ count_pegs final = 1
    | ExitUnable =>
        ∀ c b, c ∈ nodes → py_set (full_board g) c false = Ok b → ¬ winnable n b
    end.
Proof.
  intros Hn Hg.
  destruct (triangle_graph_facts n g Hn Hg) as (_ & Hclosed & Hgeo & _).
  induction nodes as [|c rest IH]; intros w e w' Hp Hdead Hrun; simpl in Hrun.
  - injection Hrun as <- <-. intros c b Hc. by apply elem_of_nil in Hc.
  - rewrite try_start_eq in Hrun.
    destruct (py_set (full_board g) c false) as [b|e0] eqn:Hset; [ | done ].
    set (w1 := set_store _ _) in Hrun.
    assert (Hb : load w1 (length (store w)) = Ok b)
      by (apply load_Ok; simpl; apply store_lookup_new).
    destruct (solve fuel g (length (store w)) w1) as [[[[|] w2]|e0]|] eqn:Hcall;
      try done.
    + injection Hrun as <- <-.
      destruct (solve_sound _ _ _ _ _ _ _ Hb Hcall)
        as [_ (path & final & Hpath & Hpl & Hc)].
      simpl in Hpath. rewrite Hp in Hpath. simpl in Hpath. rewrite Hpath.
      exists c, b, final. split; [left | ]. split; [done | ]. split; [ | done ].
      revert Hpl. apply plays_impl. intros b0 m. by apply generated_legal.
    + destruct (solve_sound _ _ _ _ _ _ _ Hb Hcall) as [_ [Hpath _]].
      assert (Hbar : barren g (count_pegs b) w1)
        by (intros b0 Hb0; left; by apply Hdead).
      destruct (solve_exhausts g Hclosed _ _ _ _ _ Hb Hbar Hcall)
        as [Hunsolv Hnew].
      apply IH in Hrun.
      * destruct e as [|moves|]; [done | | ].
        -- destruct Hrun as (c0 & b0 & final & Hc0 & Hrest).
           exists c0, b0, final. split; [by right | done].
        -- intros c0 b0 [->|Hc0]%elem_of_cons Hb0; [ | by eapply Hrun ].
           rewrite Hset in Hb0. injection Hb0 as <-.
           by rewrite (winnable_solvable n g b Hn Hg).
      * by rewrite Hpath.
      * intros b0 Hb0. destruct (Hnew b0 Hb0) as [Hin|?]; [ | done ].
        by apply Hdead.
Qed.

Lemma main_range (fuel : nat) (n_rows : Z) (e : exit) (w : World) :
  main fuel n_rows = Some (Ok (e, w)) → e ≠ ExitUsage →
  4 <= n_rows <= 6 ∧
  ∃ g, generate_triangle_graph n_rows = Ok g ∧
       try_all fuel g (starting_nodes n_rows) initial_world = Some (Ok (e, w)).
Proof.
  unfold main. intros Hrun He.
  destruct ((n_rows <? 4) || (n_rows >? 6)) eqn:Hcheck.
  - injection Hrun as <- <-. done.
  - apply orb_false_elim in Hcheck as [H1 H2]. split; [lia | ].
    destruct (generate_triangle_graph n_rows) as [g|]; [ | done ]. by exists g.
Qed.

(** X8: when [main] prints a solution, the printed moves are a solution of
    one of its starting boards: there is a starting position [c] such
    that, from the full board with the peg at [c] removed, the moves are
    legal jumps one after the other and leave exactly one peg. *)
Theorem main_solution_valid (fuel : nat) (n_rows : Z) (moves : list move)
    (w : World) :
  main fuel n_rows = Some (Ok (ExitSolved moves, w)) →
  ∃ c b final,
    c ∈ starting_nodes n_rows ∧
    py_set (replicate (Z.to_nat (triangular_number n_rows)) true) c false = Ok b ∧
    plays (legal_move n_rows) b moves final ∧
    count_pegs final = 1.
Proof.
  intros Hrun.
  destruct (main_range _ _ _ _ Hrun) as (Hn & g & Hg & Hall); [done | ].
  destruct (triangle_graph_facts n_rows g Hn Hg) as (HN & _).
  replace (Z.to_nat (triangular_number n_rows)) with (size (node g))
    by (unfold number_of_nodes in HN; lia).
  exact (try_all_sound n_rows g fuel Hn Hg (starting_nodes n_rows)
           initial_world (ExitSolved moves) w eq_refl
           ltac:(intros b0 Hb0; by apply not_elem_of_empty in Hb0) Hall).
Qed.

Lemma main_solution_valid_witness :
  ∃ c b final,
    c ∈ starting_nodes 4 ∧
    py_set (replicate (Z.to_nat (triangular_number 4)) true) c false = Ok b ∧
    plays (legal_move 4) b (printed_moves (main 9 4)) final ∧
    count_pegs final = 1.
Proof.
  apply (main_solution_valid 9 4 (printed_moves (main 9 4))
           (exit_state (main 9 4))).
  vm_compute. reflexivity.
Defined.

(** X9: the failures of [main]'s loop are final although [SEEN] is shared by
    its invocations of [solve]: if the loop over a list of starting
    positions of the graph built for [n] in {4,5,6}, begun in the initial
    state, ends with "Unable to solve puzzle", then none of the boards it
    started from can be brought down to one peg by legal jumps. *)
Theorem unable_means_unwinnable (n : Z) (g : Graph) (fuel : nat)
    (nodes : list Z) (w : World) (c : Z) (b : list bool) :
  4 <= n <= 6 →
  generate_triangle_graph n = Ok g →
  try_all fuel g nodes initial_world = Some (Ok (ExitUnable, w)) →
  c ∈ nodes →
  py_set (full_board g) c false = Ok b →
  ¬ winnable n b.
Proof.
  intros Hn Hg Hrun.
  exact (try_all_sound n g fuel Hn Hg nodes initial_world ExitUnable w eq_refl
           ltac:(intros b0 Hb0; by apply not_elem_of_empty in Hb0) Hrun c b).
Qed.

Lemma unable_means_unwinnable_witness :
  ¬ winnable 4 [true; true; true; true; true; true; true; true; true; false].
Proof.
  apply (unable_means_unwinnable 4 triangle4 9 [0; 4; 9; 6]
           (exit_state (try_all 9 triangle4 [0; 4; 9; 6] initial_world)) 9);
    [lia | exact triangle4_built | vm_compute; reflexivity
    | apply (bool_decide_unpack _); vm_compute; exact I
    | vm_compute; reflexivity].
Defined.

Lemma try_all_mono (g : Graph) (fuel fuel' : nat) (nodes : list Z) :
  (fuel <= fuel')%nat →
  ∀ w x, try_all fuel g nodes w = Some x → try_all fuel' g nodes w = Some x.
Proof.
  intros Hle. induction nodes as [|c rest IH]; intros w x H; [done | ].
  simpl in *. unfold try_start in *.
  destruct (setitem _ _ c false) as [w2|e]; [ | done ].
  destruct (solve fuel g _ w2) as [o|] eqn:Hcall; [ | done ].
  rewrite (solve_mono g fuel fuel' _ _ _ Hle Hcall).
  destruct o as [[[|] w3]|e]; try done. by apply IH.
Qed.

Lemma main_mono (fuel fuel' : nat) (n_rows : Z)
    (x : res (exit * World)) :
  (fuel <= fuel')%nat → main fuel n_rows = Some x → main fuel' n_rows = Some x.
Proof.
  intros Hle. unfold main. destruct (_ || _); [done | ].
  destruct (generate_triangle_graph n_rows); [ | done ].
  by apply try_all_mono.
Qed.

Lemma main_solves_456 (n : Z) : 4 <= n <= 6 → main_solves n = true.
Proof.
  intros Hn.
  assert (n = 4 ∨ n = 5 ∨ n = 6) as [-> | [-> | ->]] by lia;
    vm_compute; reflexivity.
Qed.

(** X10: for each supported size, 4, 5 or 6 rows, [main] raises no exception
    and ends by printing a solution, never "Unable to solve puzzle"; the
    solution has [T(n) - 2] moves, one for each peg of the starting board
    but the last. *)
Theorem main_finds_solution (fuel : nat) (n_rows : Z) :
  4 <= n_rows <= 6 →
  (21 <= fuel)%nat →
  ∃ moves w,
    main fuel n_rows = Some (Ok (ExitSolved moves, w)) ∧
    Z.of_nat (length moves) = triangular_number n_rows - 2.
Proof.
  intros Hn%main_solves_456 Hfuel. unfold main_solves in Hn.
  destruct (main 21 n_rows) as [[[[|moves|] w]|]|] eqn:Hrun; try done.
  exists moves, w. split; [ | by apply Z.eqb_eq ].
  by apply (main_mono 21 fuel).
Qed.

Lemma main_finds_solution_witness :
  ∃ moves w,
    main 30 5 = Some (Ok (ExitSolved moves, w)) ∧
    Z.of_nat (length moves) = triangular_number 5 - 2.
Proof. apply (main_finds_solution 30 5); lia. Defined.

(** ** A board that is too short *)

Lemma for_each_cases {A S : Type} (body : S -> A -> res S) (xs : list A)
    (acc : S) (e : exn) :
  (∀ acc y, y ∈ xs → (∃ acc', body acc y = Ok acc') ∨ body acc y = Raise e) →
  (∃ r, for_each body xs acc = Ok r) ∨ for_each body xs acc = Raise e.
Proof.
  revert acc. induction xs as [|x xs IH]; intros acc Hbody; simpl; [eauto | ].
  destruct (Hbody acc x) as [[acc' ->] | ->]; [left | | by right].
  simpl. apply IH. intros acc0 y Hy. apply Hbody. by right.
Qed.

Lemma for_each_raises {A S : Type} (body : S -> A -> res S) (xs : list A)
    (acc : S) (x : A) (e : exn) :
  x ∈ xs →
  (∀ acc, body acc x = Raise e) →
  (∀ acc y, y ∈ xs → (∃ acc', body acc y = Ok acc') ∨ body acc y = Raise e) →
  for_each body xs acc = Raise e.
Proof.
  revert acc. induction xs as [|y xs IH]; intros acc Hx Hraise Hbody;
    [by apply elem_of_nil in Hx | ].
  simpl. apply elem_of_cons in Hx as [<-|Hx]; [by rewrite Hraise | ].
  destruct (Hbody acc y) as [[acc' ->] | ->]; [left | | done].
  simpl. apply IH; [done.. | ]. intros acc0 z Hz. apply Hbody. by right.
Qed.

Lemma py_get_cases {A : Type} (l : list A) (i : Z) :
  (∃ a, py_get l i = Ok a) ∨ py_get l i = Raise IndexError.
Proof.
  unfold py_get. destruct (py_index l i) as [k|e] eqn:Hk; simpl.
  - destruct (l !! k); eauto.
  - right. unfold py_index in Hk.
    destruct (_ && _); [done | ]. destruct (_ && _); [done | ]. congruence.
Qed.

Lemma jump_cases (g : Graph) (bs : list bool) (src mid : Z) :
  closed_graph g = true →
  0 <= src < number_of_nodes g →
  0 <= mid < number_of_nodes g →
  (∃ o, jump g bs src mid = Ok o) ∨ jump g bs src mid = Raise IndexError.
Proof.
  intros Hg Hsrc Hmid. unfold jump.
  case_bool_decide; [eauto | ].
  destruct (py_get_cases bs mid) as [[mp ->] | ->]; [ | by right ]. simpl.
  destruct mp; simpl; [ | eauto ].
  destruct (closed_graph_node g src Hg Hsrc) as (sl & sn & -> & -> & Hsn).
  destruct (closed_graph_node g mid Hg Hmid) as (ml & mn & -> & -> & Hmn).
  simpl. set (dest := if bool_decide (sl ≠ ml) then _ else _).
  destruct (bool_decide (dest ∈ mn)) eqn:Hd; simpl; [ | eauto ].
  apply bool_decide_eq_true, Hmn in Hd.
  case_bool_decide; [eauto | ].
  destruct (closed_graph_node g dest Hg Hd) as (dl & dn & -> & _ & _).
  assert (Hlast : (∃ o, (py_get bs dest ≫= λ dest_peg : bool,
                     if dest_peg then Ok None else Ok (Some (src, mid, dest)))
                   = Ok o)
                  ∨ (py_get bs dest ≫= λ dest_peg : bool,
                     if dest_peg then Ok None else Ok (Some (src, mid, dest)))
                    = Raise IndexError).
  { destruct (py_get_cases bs dest) as [[dp ->] | ->]; [ | by right ].
    simpl. destruct dp; eauto. }
  case_bool_decide; simpl; [ | done ].
  case_bool_decide; simpl; [eauto | done].
Qed.

Lemma moves_from_cases (g : Graph) (bs : list bool) (acc : list move) (src : Z) :
  closed_graph g = true →
  0 <= src < number_of_nodes g →
  (∃ acc', moves_from g bs acc src = Ok acc')
  ∨ moves_from g bs acc src = Raise IndexError.
Proof.
  intros Hg Hsrc. unfold moves_from.
  destruct (py_get_cases bs src) as [[sp ->] | ->]; [ | by right ]. simpl.
  destruct sp; [ | eauto ].
  destruct (closed_graph_node g src Hg Hsrc) as (sl & sn & _ & -> & Hsn).
  simpl. apply for_each_cases. intros acc0 mid Hmid%Hsn. unfold jump_over.
  destruct (jump_cases g bs src mid Hg Hsrc Hmid) as [[o ->] | ->];
    [left; simpl; eauto | by right].
Qed.

(** X11: a board with fewer holes than the graph has nodes is not accepted
    silently.  On the graph built for [n] in {4,5,6}, the move generator
    raises [IndexError] on every board shorter than [T(n)], and so does
    [solve], unless the short board holds exactly one peg, which [solve]
    reports as solved before it looks for moves. *)
Theorem short_board_raises (n : Z) (g : Graph) (fuel : nat) (bs : loc)
    (b : list bool) (w : World) :
  4 <= n <= 6 →
  generate_triangle_graph n = Ok g →
  Z.of_nat (length b) < triangular_number n →
  load w bs = Ok b →
  get_valid_moves g b = Raise IndexError ∧
  solve (S fuel) g bs w
  = if bool_decide (count_pegs b = 1) then Some (Ok (true, w))
    else Some (Raise IndexError).
Proof.
  intros Hn Hg Hlen Hb.
  destruct (triangle_graph_facts n g Hn Hg) as (HN & Hclosed & _ & _).
  assert (Hraise : get_valid_moves g b = Raise IndexError).
  { unfold get_valid_moves.
    apply (for_each_raises _ _ _ (Z.of_nat (length b))).
    - apply elem_of_range. lia.
    - intros acc. unfold moves_from, py_get, py_index.
      rewrite Z.ltb_irrefl, andb_false_r.
      replace (Z.of_nat (length b) <? 0) with false by lia. done.
    - intros acc src Hsrc%elem_of_range. by apply moves_from_cases. }
  split; [done | ]. simpl. rewrite Hb. case_bool_decide; [done | ].
  by rewrite Hraise.
Qed.

Lemma short_board_raises_witness :
  get_valid_moves triangle4 [true; true; false] = Raise IndexError ∧
  solve 1 triangle4 0%nat (fresh [true; true; false])
  = if bool_decide (count_pegs [true; true; false] = 1)
    then Some (Ok (true, fresh [true; true; false]))
    else Some (Raise IndexError).
Proof.
  apply (short_board_raises 4 triangle4 0 0%nat [true; true; false]
           (fresh [true; true; false]));
    [lia | exact triangle4_built | vm_compute; reflexivity | reflexivity].
Defined.

(** ** The graph builder for any number of rows *)

Lemma edge_adj (g : Graph) (u v : Z) :
  edge g u v ↔ ∃ ns, adj g !! u = Some ns ∧ v ∈ ns.
Proof.
  unfold edge, neighbors. split; intros (ns & H & Hv); exists ns.
  - destruct (adj g !! u); [ | done ]. by injection H as ->.
  - by rewrite H.
Qed.

Lemma nodes_loop (k : nat) :
  let g := foldl add_node empty_graph (Z.of_nat <$> seq 0 k) in
  (∀ u, is_Some (node g !! u) ↔ 0 <= u < Z.of_nat k) ∧
  (∀ u, is_Some (adj g !! u) ↔ 0 <= u < Z.of_nat k) ∧
  size (node g) = k ∧
  ∀ u v, ¬ edge g u v.
Proof.
  induction k as [|k (Hnode & Hadj & Hsize & Hedge)]; cbv zeta.
  - simpl. split; [ | split; [ | split; [done | ] ] ].
    + intros u. rewrite lookup_empty. split; [by intros [? ?] | lia].
    + intros u. rewrite lookup_empty. split; [by intros [? ?] | lia].
    + intros u v (ns & H & _)%edge_adj. simpl in H.
      by rewrite lookup_empty in H.
  - cbv zeta in Hnode, Hadj, Hsize, Hedge.
    rewrite seq_S, fmap_app, foldl_app. simpl.
    set (g := foldl add_node empty_graph (Z.of_nat <$> seq 0 k)) in *.
    unfold add_node.
    destruct (node g !! Z.of_nat k) as [x|] eqn:Hk.
    { assert (is_Some (node g !! Z.of_nat k)) as H%Hnode by eauto. lia. }
    simpl. split; [ | split; [ | split ] ].
    + intros u. rewrite lookup_insert_is_Some', Hnode. lia.
    + intros u. rewrite lookup_insert_is_Some', Hadj. lia.
    + rewrite map_size_insert_None by done. lia.
    + intros u v (ns & H & Hv)%edge_adj. simpl in H.
      apply lookup_insert_Some in H as [[_ <-]|[_ H]];
        [by apply elem_of_nil in Hv | ].
      apply (Hedge u v), edge_adj. eauto.
Qed.

Lemma add_neighbor_spec (g : Graph) (a b : Z) :
  is_Some (adj g !! a) →
  node (add_neighbor g a b) = node g ∧
  (∀ u, is_Some (adj (add_neighbor g a b) !! u) ↔ is_Some (adj g !! u)) ∧
  ∀ u v, edge (add_neighbor g a b) u v ↔ edge g u v ∨ (u = a ∧ v = b).
Proof.
  intros [ns Ha]. unfold add_neighbor. rewrite Ha. simpl.
  case_bool_decide as Hb.
  - do 2 (split; [done | ]). intros u v. split; [by left | ].
    intros [H|[-> ->]]; [done | ]. apply edge_adj. eauto.
  - simpl. split; [done | ]. split.
    + intros u. rewrite lookup_insert_is_Some'. split; [ | by right ].
      intros [<-|H]; eauto.
    + intros u v. rewrite !edge_adj. simpl. split.
      * intros (ns' & H & Hv).
        apply lookup_insert_Some in H as [[<- <-]|[Hne H]]; [ | left; eauto ].
        apply elem_of_app in Hv as [Hv|Hv%list_elem_of_singleton];
          [left; eauto | by right].
      * intros [(ns' & H & Hv)|[-> ->]].
        -- destruct (decide (a = u)) as [<-|Hne].
           ++ exists (ns ++ [b]). rewrite lookup_insert_eq. split; [done | ].
              rewrite Ha in H. injection H as <-. apply elem_of_app. by left.
           ++ exists ns'. by rewrite lookup_insert_ne.
        -- exists (ns ++ [b]). rewrite lookup_insert_eq. split; [done | ].
           apply elem_of_app. right. left.
Qed.

Lemma add_edge_board (V : Z) (g : Graph) (a b : Z) :
  board_graph V g → 0 <= a < V → 0 <= b < V → a ≠ b →
  board_graph V (add_edge g a b).
Proof.
  intros (Hnode & Hadj & Hsize & Hedge) Ha Hb Hne.
  unfold add_edge, add_node.
  destruct (node g !! a) as [x|] eqn:Hna.
  2:{ assert (is_Some (node g !! a)) as [? ?] by by apply Hnode. congruence. }
  destruct (node g !! b) as [y|] eqn:Hnb.
  2:{ assert (is_Some (node g !! b)) as [? ?] by by apply Hnode. congruence. }
  destruct (add_neighbor_spec g a b) as (Hn1 & Ha1 & He1); [by apply Hadj | ].
  destruct (add_neighbor_spec (add_neighbor g a b) b a) as (Hn2 & Ha2 & He2).
  { apply Ha1. by apply Hadj. }
  split; [ | split; [ | split ] ].
  - intros u. by rewrite Hn2, Hn1.
  - intros u. by rewrite Ha2, Ha1.
  - by rewrite Hn2, Hn1.
  - intros u v. rewrite !He2, !He1.
    intros [[H|[-> ->]]|[-> ->]].
    + destruct (Hedge u v H) as (? & ? & ?). split; [by do 2 left | done].
    + split; [by right | ]. split; [done | lia].
    + split; [left; by right | ]. split; [done | lia].
Qed.

Lemma set_level_board (V : Z) (g : Graph) (a l : Z) :
  board_graph V g → 0 <= a < V →
  ∃ g', set_level g a l = Ok g' ∧ board_graph V g'.
Proof.
  intros (Hnode & Hadj & Hsize & Hedge) Ha. unfold set_level.
  destruct (node g !! a) as [x|] eqn:Hna.
  2:{ assert (is_Some (node g !! a)) as [? ?] by by apply Hnode. congruence. }
  eexists. split; [done | ]. split; [ | split; [done | split; [ | done ] ] ];
    simpl.
  - intros u. rewrite lookup_insert_is_Some', <- Hnode. split; [ | by right ].
    intros [<-|H]; eauto.
  - rewrite map_size_insert_Some by eauto. done.
Qed.

Lemma triangle_cell_board (n i j : Z) (g : Graph) :
  0 <= i < n → 0 <= j <= i →
  board_graph (triangular_number n) g →
  ∃ g', triangle_cell n i g j = Ok g' ∧ board_graph (triangular_number n) g'.
Proof.
  intros Hi Hj Hg. unfold triangle_cell.
  change ((i * (i + 1)) `div` 2) with (triangular_number i).
  pose proof (triangular_number_double i) as Ti.
  pose proof (triangular_number_double n) as Tn.
  set (c := triangular_number i + j).
  assert (Hc : 0 <= c < triangular_number n) by (unfold c; nia).
  destruct (set_level_board _ g c i Hg Hc) as (g1 & -> & Hg1). simpl.
  eexists. split; [done | ].
  assert (Hg2 : board_graph (triangular_number n)
            (if i <? n - 1
             then add_edge (add_edge g1 c (c + i + 1)) c (c + i + 2)
             else g1)).
  { destruct (i <? n - 1) eqn:Hlast; [ | done ].
    apply Z.ltb_lt in Hlast.
    apply add_edge_board; [ | done | unfold c; nia | lia ].
    apply add_edge_board; [done | done | unfold c; nia | lia ]. }
  destruct (j <? i) eqn:Hright; [ | done ].
  apply Z.ltb_lt in Hright.
  apply add_edge_board; [done | done | unfold c; nia | lia ].
Qed.

Lemma for_each_board (V : Z) {A : Type} (body : Graph -> A -> res Graph)
    (xs : list A) (g : Graph) :
  board_graph V g →
  (∀ g x, x ∈ xs → board_graph V g →
          ∃ g', body g x = Ok g' ∧ board_graph V g') →
  ∃ g', for_each body xs g = Ok g' ∧ board_graph V g'.
Proof.
  revert g. induction xs as [|x xs IH]; intros g Hg Hbody; simpl; [eauto | ].
  destruct (Hbody g x) as (g1 & -> & Hg1); [left | done | ]. simpl.
  apply IH; [done | ]. intros g0 y Hy. apply Hbody. by right.
Qed.

(** X12: for every integer [n], also outside 4..6, [generate_triangle_graph]
    raises nothing and returns a graph with exactly [T(n)] nodes, the
    integers [0 .. T(n)-1]; its adjacency is symmetric ([v] is a neighbour
    of [u] exactly when [u] is one of [v]), no node is its own neighbour,
    and every neighbour is a node. *)
Theorem triangle_graph_undirected (n : Z) :
  ∃ g, generate_triangle_graph n = Ok g ∧
       number_of_nodes g = triangular_number n ∧
       (∀ u, (∃ ns, neighbors g u = Ok ns) ↔ 0 <= u < triangular_number n) ∧
       ∀ u v, edge g u v → edge g v u ∧ u ≠ v ∧ 0 <= v < triangular_number n.
Proof.
  pose proof (triangular_number_double n) as Tn.
  assert (HT : 0 <= triangular_number n) by nia.
  unfold generate_triangle_graph, range at 1.
  destruct (nodes_loop (Z.to_nat (triangular_number n)))
    as (Hnode & Hadj & Hsize & Hedge).
  set (g0 := foldl add_node empty_graph _) in *.
  assert (Hg0 : board_graph (triangular_number n) g0).
  { split; [ | split; [ | split; [done | ] ] ].
    - intros u. rewrite Hnode. lia.
    - intros u. rewrite Hadj. lia.
    - intros u v H. by apply Hedge in H. }
  destruct (for_each_board (triangular_number n) (triangle_row n) (range n) g0
              Hg0) as (g & Hrun & Hg).
  { intros g1 i Hi%elem_of_range Hg1. unfold triangle_row.
    apply for_each_board; [done | ].
    intros g2 j Hj%elem_of_range Hg2. apply triangle_cell_board; [lia | lia | done]. }
  exists g. split; [done | ].
  destruct Hg as (Hn & Ha & Hs & He).
  split; [unfold number_of_nodes; lia | ]. split; [ | done ].
  intros u. rewrite <- Ha. unfold neighbors.
  destruct (adj g !! u); split; intros [? ?]; eauto; done.
Qed.

(** ** A board that is too long *)

Lemma for_each_ext {A S : Type} (body body' : S -> A -> res S) (xs : list A)
    (acc : S) :
  (∀ acc x, x ∈ xs → body acc x = body' acc x) →
  for_each body xs acc = for_each body' xs acc.
Proof.
  revert acc. induction xs as [|x xs IH]; intros acc Hext; simpl; [done | ].
  rewrite Hext by left. destruct (body' acc x) as [acc'|e]; simpl; [ | done ].
  apply IH. intros acc0 y Hy. apply Hext. by right.
Qed.

Lemma py_get_app {A : Type} (l extra : list A) (i : Z) :
  0 <= i < Z.of_nat (length l) → py_get (l ++ extra) i = py_get l i.
Proof.
  intros Hi. unfold py_get.
  rewrite !py_index_in_range by (rewrite ?length_app; lia). simpl.
  rewrite lookup_app_l by lia. done.
Qed.

Lemma jump_app (g : Graph) (bs extra : list bool) (src mid : Z) :
  closed_graph g = true →
  number_of_nodes g <= Z.of_nat (length bs) →
  0 <= src < number_of_nodes g →
  0 <= mid < number_of_nodes g →
  jump g (bs ++ extra) src mid = jump g bs src mid.
Proof.
  intros Hg Hlen Hsrc Hmid. unfold jump.
  case_bool_decide; [done | ].
  rewrite py_get_app by lia.
  destruct (py_get bs mid) as [mp|e]; simpl; [ | done ].
  destruct mp; simpl; [ | done ].
  destruct (closed_graph_node g src Hg Hsrc) as (sl & sn & -> & -> & Hsn).
  destruct (closed_graph_node g mid Hg Hmid) as (ml & mn & -> & -> & Hmn).
  simpl. set (dest := if bool_decide (sl ≠ ml) then _ else _).
  destruct (bool_decide (dest ∈ mn)) eqn:Hd; simpl; [ | done ].
  apply bool_decide_eq_true, Hmn in Hd.
  case_bool_decide; [done | ].
  rewrite (py_get_app bs extra dest) by lia. done.
Qed.

(** X13: a board with more entries than the graph has nodes is accepted
    without complaint.  On the graph built for [n] in {4,5,6}, the move
    generator never looks at the entries after the first [T(n)]: it answers
    for [b ++ extra] what it answers for [b]. *)
Theorem long_board_tail_ignored (n : Z) (g : Graph) (b extra : list bool) :
  4 <= n <= 6 →
  generate_triangle_graph n = Ok g →
  Z.of_nat (length b) = triangular_number n →
  get_valid_moves g (b ++ extra) = get_valid_moves g b.
Proof.
  intros Hn Hg Hlen.
  destruct (triangle_graph_facts n g Hn Hg) as (HN & Hclosed & _ & _).
  unfold get_valid_moves. apply for_each_ext.
  intros acc src Hsrc%elem_of_range. unfold moves_from.
  rewrite py_get_app by lia.
  destruct (py_get b src) as [[|]|e]; simpl; [ | done | done ].
  destruct (closed_graph_node g src Hclosed Hsrc) as (sl & sn & _ & -> & Hsn).
  simpl. apply for_each_ext. intros acc0 mid Hmid%Hsn. unfold jump_over.
  rewrite jump_app by (done || lia). done.
Qed.

Lemma long_board_tail_ignored_witness :
  get_valid_moves triangle4 (corner_empty ++ [true; false; true])
  = get_valid_moves triangle4 corner_empty.
Proof.
  apply (long_board_tail_ignored 4 triangle4 corner_empty [true; false; true]);
    [lia | exact triangle4_built | reflexivity].
Defined.

(** ** [solve] decides the game *)

(** X14: on the graph built for [n] in {4,5,6}, for a board of [T(n)] holes
    and an empty [SEEN], [solve] returns, and it returns [True] exactly
    when some sequence of legal jumps brings the board down to one peg. *)
Theorem solve_decides_winnable (n : Z) (g : Graph) (fuel : nat) (bs : loc)
    (b : list bool) (w : World) :
  4 <= n <= 6 →
  generate_triangle_graph n = Ok g →
  Z.of_nat (length b) = triangular_number n →
  load w bs = Ok b →
  SEEN w = ∅ →
  (21 <= fuel)%nat →
  ∃ r w', solve fuel g bs w = Some (Ok (r, w')) ∧ (r = true ↔ winnable n b).
Proof.
  intros Hn Hg Hlen Hb Hseen Hfuel.
  destruct (triangle_graph_facts n g Hn Hg) as (HN & Hclosed & _ & _).
  pose proof (count_pegs_bounds b) as Hc.
  assert (HT : triangular_number n <= 21).
  { assert (n = 4 ∨ n = 5 ∨ n = 6) as [-> | [-> | ->]] by lia; by vm_compute. }
  destruct (solve_total g Hclosed fuel bs w b Hb) as (r & w' & Hrun);
    [lia | lia | ].
  exists r, w'. split; [done | ].
  rewrite (winnable_solvable n g b Hn Hg). destruct r.
  - split; [intros _ | done].
    destruct (solve_sound _ _ _ _ _ _ _ Hb Hrun)
      as [_ (path & final & _ & Hpl & Hone)].
    by exists path, final.
  - split; [done | ]. intros Hs. exfalso.
    eapply (solve_exhausts g Hclosed); [exact Hb | | exact Hrun | exact Hs].
    intros b0 Hb0. rewrite Hseen in Hb0. set_solver.
Qed.

Lemma solve_decides_winnable_witness :
  ∃ r w', solve 21 triangle4 0%nat (fresh corner_empty) = Some (Ok (r, w')) ∧
          (r = true ↔ winnable 4 corner_empty).
Proof.
  apply (solve_decides_winnable 4 triangle4 21 0%nat corner_empty
           (fresh corner_empty));
    [lia | exact triangle4_built | reflexivity | reflexivity | reflexivity
    | lia].
Defined.

(** ** The printout shows the board *)

Lemma symbols_app (a b : list ascii) : symbols (a ++ b) = symbols a ++ symbols b.
Proof. unfold symbols. by rewrite filter_app, fmap_app. Qed.

Lemma symbols_spaces (k : nat) : symbols (replicate k " "%char) = [].
Proof. induction k as [|k IH]; [done | ]. simpl. exact IH. Qed.

Lemma print_cell_symbols (n_rows : Z) (st : Z * Z * list ascii) (i : Z)
    (has_peg : bool) :
  ∃ ext, (print_cell n_rows st (i, has_peg)).2 = st.2 ++ ext ∧
         symbols ext = [has_peg].
Proof.
  destruct st as [[idx len] out]. unfold print_cell.
  set (cell := [if has_peg then "O"%char else "X"%char; " "%char]).
  assert (Hcell : symbols cell = [has_peg]) by by destruct has_peg.
  case_bool_decide.
  - exists ([newline] ++ replicate (Z.to_nat (n_rows - len)) " "%char ++ cell).
    split; [simpl; by rewrite <- !app_assoc | ].
    by rewrite !symbols_app, symbols_spaces, Hcell.
  - by exists cell.
Qed.

Lemma print_cells_symbols (n_rows : Z) (cells : list (Z * bool)) :
  ∀ st, ∃ ext, (foldl (print_cell n_rows) st cells).2 = st.2 ++ ext ∧
               symbols ext = cells.*2.
Proof.
  induction cells as [|[i has_peg] cells IH]; intros st; simpl.
  - exists []. by rewrite app_nil_r.
  - destruct (print_cell_symbols n_rows st i has_peg) as (e1 & H1 & S1).
    destruct (IH (print_cell n_rows st (i, has_peg))) as (e2 & H2 & S2).
    exists (e1 ++ e2). rewrite H2, H1, <- app_assoc. split; [done | ].
    by rewrite symbols_app, S1, S2.
Qed.

(** X15: [print_bs] shows the board it is given.  For every board and every
    row count, the output is the header line followed by a body from which
    the board can be read back: its symbols [O] and [X], in order, are the
    pegs and holes of the board. *)
Theorem print_bs_shows_board (bs : list bool) (n_rows : Z) :
  ∃ body, print_bs bs n_rows = header ++ newline :: body ∧ symbols body = bs.
Proof.
  unfold print_bs. generalize header. intros h.
  destruct (print_cells_symbols n_rows
              (zip (range (Z.of_nat (length bs))) bs)
              (0, 1, h ++ [newline])) as (ext & Hout & Hsym).
  destruct (foldl _ _ _) as [[idx len] out]. simpl in Hout. subst out.
  exists (ext ++ [newline; newline]). split.
  - by rewrite <- !app_assoc.
  - rewrite symbols_app, Hsym, app_nil_r. apply snd_zip.
    unfold range. rewrite length_fmap, length_seq. lia.
Qed.

(** ** The moves come in the order of the loops *)

Lemma jump_key (g : Graph) (bs : list bool) (src mid : Z) (m : move) :
  jump g bs src mid = Ok (Some m) → move_key m = (src, mid).
Proof.
  unfold jump. intros H.
  case_bool_decide; [done | ].
  apply bind_Ok in H as (mid_peg & _ & H).
  destruct mid_peg; simpl in H; [ | done ].
  apply bind_Ok in H as (sl & _ & H). apply bind_Ok in H as (ml & _ & H).
  apply bind_Ok in H as (mn & _ & H).
  destruct (negb _); [done | ].
  apply bind_Ok in H as (sn & _ & H).
  case_bool_decide; [done | ].
  apply bind_Ok in H as (off & _ & H). destruct off; [done | ].
  apply bind_Ok in H as (dest_peg & _ & H). destruct dest_peg; [done | ].
  by injection H as <-.
Qed.

Lemma jump_over_keys (g : Graph) (bs : list bool) (src : Z) (nbrs : list Z) :
  ∀ acc r,
    for_each (jump_over g bs src) nbrs acc = Ok r →
    ∃ ext, r = acc ++ ext ∧
           (move_key <$> ext) `sublist_of` ((λ mid, (src, mid)) <$> nbrs).
Proof.
  induction nbrs as [|mid nbrs IH]; intros acc r H; simpl in H.
  - injection H as <-. exists []. by rewrite app_nil_r.
  - apply bind_Ok in H as (acc1 & Hj & H). unfold jump_over in Hj.
    apply bind_Ok in Hj as (o & Hjump & Hj). injection Hj as <-.
    destruct (IH _ _ H) as (ext & -> & Hsub). destruct o as [m|].
    + exists (m :: ext). rewrite <- app_assoc. split; [done | ].
      rewrite !fmap_cons, (jump_key _ _ _ _ _ Hjump). by apply sublist_skip.
    + exists ext. split; [done | ]. rewrite fmap_cons. by apply sublist_cons.
Qed.

Lemma moves_from_keys (g : Graph) (bs : list bool) (acc : list move) (src : Z)
    (acc' : list move) :
  moves_from g bs acc src = Ok acc' →
  ∃ ext, acc' = acc ++ ext ∧
         (move_key <$> ext)
           `sublist_of` ((λ mid, (src, mid)) <$> default [] (adj g !! src)).
Proof.
  unfold moves_from. intros H. apply bind_Ok in H as (has_peg & _ & H).
  destruct has_peg.
  - apply bind_Ok in H as (nbrs & Hn & H). unfold neighbors in Hn.
    destruct (adj g !! src) as [ns|]; [ | done ]. injection Hn as ->.
    by apply (jump_over_keys g bs).
  - injection H as <-. exists []. rewrite app_nil_r. split; [done | ].
    apply sublist_nil_l.
Qed.

Lemma get_valid_moves_keys (g : Graph) (bs : list bool) (moves : list move) :
  get_valid_moves g bs = Ok moves →
  (move_key <$> moves) `sublist_of` loop_pairs g.
Proof.
  unfold get_valid_moves, loop_pairs.
  assert (H : ∀ xs acc r,
    for_each (moves_from g bs) xs acc = Ok r →
    ∃ ext, r = acc ++ ext ∧
           (move_key <$> ext)
             `sublist_of` (xs ≫= λ src,
                (λ mid, (src, mid)) <$> default [] (adj g !! src))).
  { induction xs as [|src xs IH]; intros acc r H; simpl in H.
    - injection H as <-. exists []. by rewrite app_nil_r.
    - apply bind_Ok in H as (acc1 & H1 & H).
      destruct (moves_from_keys _ _ _ _ _ H1) as (e1 & -> & S1).
      destruct (IH _ _ H) as (e2 & -> & S2).
      exists (e1 ++ e2). rewrite <- app_assoc. split; [done | ].
      rewrite fmap_app, bind_cons. by apply sublist_app. }
  intros Hrun. destruct (H _ _ _ Hrun) as (ext & -> & Hsub). done.
Qed.

Lemma sorted_sublist {A : Type} (R : relation A) (l1 l2 : list A) :
  l1 `sublist_of` l2 → StronglySorted R l2 → StronglySorted R l1.
Proof.
  induction 1 as [|x l1 l2 Hsub IH|x l1 l2 Hsub IH]; intros Hs; [done | | ].
  - apply StronglySorted_inv in Hs as [Hs Hall]. constructor; [by apply IH | ].
    rewrite Forall_forall in Hall |- *. intros y Hy. apply Hall.
    by apply (sublist_subseteq _ _ Hsub).
  - apply StronglySorted_inv in Hs as [Hs _]. by apply IH.
Qed.

Lemma sorted_by_key (l : list move) :
  StronglySorted by_src (move_key <$> l) →
  StronglySorted (λ m1 m2 : move, m1.1.1 <= m2.1.1) l.
Proof.
  induction l as [|m l IH]; intros Hs; [constructor | ].
  rewrite fmap_cons in Hs. apply StronglySorted_inv in Hs as [Hs Hall].
  constructor; [by apply IH | ].
  rewrite Forall_fmap in Hall. eapply Forall_impl; [exact Hall | ].
  by intros m'.
Qed.

Lemma loop_pairs_ordered_456 (n : Z) : 4 <= n <= 6 → loop_pairs_ordered n = true.
Proof.
  intros Hn.
  assert (n = 4 ∨ n = 5 ∨ n = 6) as [-> | [-> | ->]] by lia;
    vm_compute; reflexivity.
Qed.

(** X16: the moves come out in the order of the two loops.  On the graph
    built for [n] in {4,5,6}, the pairs [(src, mid)] of the returned moves,
    in the order of the list, are a subsequence of the pairs in the order
    the loops visit them: [src] ascending through [range], and for each
    [src] its neighbours in the order of [graph.neighbors].  So the list is
    sorted by source position and lists no move twice. *)
Theorem moves_in_loop_order (n : Z) (g : Graph) (bs : list bool)
    (moves : list move) :
  4 <= n <= 6 →
  generate_triangle_graph n = Ok g →
  get_valid_moves g bs = Ok moves →
  (move_key <$> moves) `sublist_of` loop_pairs g ∧
  NoDup (loop_pairs g) ∧
  StronglySorted (λ m1 m2 : move, m1.1.1 <= m2.1.1) moves ∧ NoDup moves.
Proof.
  intros Hn%loop_pairs_ordered_456 Hg Hmoves.
  unfold loop_pairs_ordered in Hn. rewrite Hg in Hn.
  apply andb_prop in Hn as [Hnd Hs].
  apply bool_decide_eq_true in Hnd. apply bool_decide_eq_true in Hs.
  pose proof (get_valid_moves_keys g bs moves Hmoves) as Hsub.
  do 2 (split; [done | ]). split.
  - apply sorted_by_key. by eapply sorted_sublist.
  - apply (NoDup_fmap_1 move_key). by eapply sublist_NoDup.
Qed.

Lemma moves_in_loop_order_witness :
  (move_key <$> [(3, 1, 0); (5, 2, 0)]) `sublist_of` loop_pairs triangle4 ∧
  NoDup (loop_pairs triangle4) ∧
  StronglySorted (λ m1 m2 : move, m1.1.1 <= m2.1.1) [(3, 1, 0); (5, 2, 0)]
  ∧ NoDup [(3, 1, 0); (5, 2, 0) : move].
Proof.
  apply (moves_in_loop_order 4 triangle4 corner_empty);
    [lia | exact triangle4_built | vm_compute; reflexivity].
Defined.

(** ** The starting positions of [main] *)

Lemma symmetry_checks_456 (n : Z) : 4 <= n <= 6 → symmetry_checks n = true.
Proof.
  intros Hn.
  assert (n = 4 ∨ n = 5 ∨ n = 6) as [-> | [-> | ->]] by lia;
    vm_compute; reflexivity.
Qed.

Lemma collinear_adjacent (n a b c : Z) :
  collinear n a b c = true → adjacent a b = true.
Proof.
  unfold collinear, adjacent. intros H.
  repeat (apply andb_prop in H as [H ?]). done.
Qed.

(** X17: the loops of [main] over rows [0 .. n/2] and columns
    [0 .. (i+1)/2] leave out no hole up to symmetry.  For [n] in {4,5,6},
    every hole of the board is the image of one of [main]'s starting
    positions under one of the six symmetries of the triangle, and that
    symmetry maps every line of three consecutive holes to such a line, so
    it maps legal jumps to legal jumps. *)
Theorem starting_nodes_cover_board (n p : Z) :
  4 <= n <= 6 →
  0 <= p < triangular_number n →
  ∃ s k, s ∈ starting_nodes n ∧ 0 <= k < 6 ∧ triangle_symmetry n k s = p ∧
         ∀ a b c, collinear n a b c = true →
                  collinear n (triangle_symmetry n k a)
                    (triangle_symmetry n k b) (triangle_symmetry n k c) = true.
Proof.
  intros Hn%symmetry_checks_456 Hp. unfold symmetry_checks in Hn.
  apply andb_prop in Hn as [Hlines Hcover].
  apply (forallb_range _ _ p) in Hcover; [ | done ]. cbv beta in Hcover.
  apply existsb_exists in Hcover as (s & Hs & Hk).
  apply existsb_exists in Hk as (k & Hk & Heq).
  apply list_elem_of_In in Hs. apply list_elem_of_In, elem_of_range in Hk.
  apply Z.eqb_eq in Heq.
  exists s, k. do 3 (split; [done | ]).
  intros a b c Hcol.
  destruct (collinear_on_board _ _ _ _ Hcol) as (Ha & Hb & Hc).
  apply (forallb_range _ _ k) in Hlines; [ | done ]. cbv beta in Hlines.
  apply (forallb_range _ _ a) in Hlines; [ | done ]. cbv beta in Hlines.
  apply (forallb_range _ _ b) in Hlines; [ | done ]. cbv beta in Hlines.
  rewrite (collinear_adjacent _ _ _ _ Hcol) in Hlines.
  apply (forallb_range _ _ c) in Hlines; [ | done ]. cbv beta in Hlines.
  by rewrite Hcol in Hlines.
Qed.

Lemma starting_nodes_cover_board_witness :
  ∃ s k, s ∈ starting_nodes 6 ∧ 0 <= k < 6 ∧ triangle_symmetry 6 k s = 20 ∧
         ∀ a b c, collinear 6 a b c = true →
                  collinear 6 (triangle_symmetry 6 k a)
                    (triangle_symmetry 6 k b) (triangle_symmetry 6 k c) = true.
Proof.
  apply (starting_nodes_cover_board 6 20);
    [lia | vm_compute; split; [discriminate | reflexivity] ].
Defined.
